(** * Dispenser SDK: protocol engine of the Neogi (ASCII) and TCS3000
      (binary) dispensers

    Shallow embedding of [src/dispenser/Neogi.ts] (the two variants of the
    class that the file holds) and of the TCS3000 class, followed by the
    properties of the checksum, the frame codec, the response correlator,
    the status classifier and the order progress tracker. *)

From Stdlib Require Import ZArith NArith Ascii String List Bool Lia QArith Qround.
From stdpp Require Import base option list gmap.

Set Default Proof Using "Type".

(** ** JavaScript strings

    A JavaScript string is a sequence of UTF-16 code units; [charCodeAt]
    returns the unit as a number in [0, 65535].  The embedding keeps the
    unit as an [N] and the string as the list of its units. *)

Abbreviation jsstring := (list N).

(** The string literal of the source, unit by unit. *)
Definition js (s : string) : jsstring :=
  map N_of_ascii (list_ascii_of_string s).

Definition HASH : N := 35.      (* '#' *)
Definition PERCENT : N := 37.   (* '%' *)
Definition ZERO : N := 48.      (* '0' *)
Definition SPACE : N := 32.     (* ' ' *)
Definition CR : N := 13.        (* '\r' *)

(** [s.charCodeAt(i)] for an index inside the string (the loops of the
    source never leave it). *)
Definition charCodeAt (s : jsstring) (i : nat) : N := nth i s 0%N.

(** [s.startsWith(c)] for a one-unit search string. *)
Definition startsWith (s : jsstring) (c : N) : bool :=
  match s with
  | x :: _ => N.eqb x c
  | [] => false
  end.

(** [s.includes(c, from)] for a one-unit search string. *)
Definition includes (s : jsstring) (c : N) (from : nat) : bool :=
  existsb (N.eqb c) (drop from s).

(** [s.substring(a)] and [s.substring(a, b)] with [a <= b]; both clamp to
    the length of the string. *)
Definition substring_from (s : jsstring) (a : nat) : jsstring := drop a s.
Definition substring (s : jsstring) (a b : nat) : jsstring :=
  take (b - a) (drop a s).

(** [s.slice(a, -k)]: the end index counts from the end of the string and
    an empty range gives the empty string. *)
Definition slice_neg (s : jsstring) (a k : nat) : jsstring :=
  let len := length s in
  let from := Nat.min a len in
  let to := len - k in
  take (to - from) (drop from s).

(** [s.padStart(n, c)] and [s.padEnd(n, c)] for a one-unit filler. *)
Definition padStart (s : jsstring) (n : nat) (c : N) : jsstring :=
  replicate (n - length s) c ++ s.
Definition padEnd (s : jsstring) (n : nat) (c : N) : jsstring :=
  s ++ replicate (n - length s) c.

(** White space and line terminators of ECMAScript, the units that
    [trim] removes at both ends. *)
Definition isLineTerminator (c : N) : bool :=
  (c =? 10)%N || (c =? 13)%N || (c =? 0x2028)%N || (c =? 0x2029)%N.

Definition isWhiteSpace (c : N) : bool :=
  (c =? 9)%N || (c =? 11)%N || (c =? 12)%N || (c =? 32)%N || (c =? 0xA0)%N
  || (c =? 0x1680)%N || ((0x2000 <=? c)%N && (c <=? 0x200A)%N)
  || (c =? 0x202F)%N || (c =? 0x205F)%N || (c =? 0x3000)%N || (c =? 0xFEFF)%N.

Definition isTrimmed (c : N) : bool := isWhiteSpace c || isLineTerminator c.

Fixpoint trimStart (s : jsstring) : jsstring :=
  match s with
  | c :: s' => if isTrimmed c then trimStart s' else s
  | [] => []
  end.

Definition trim (s : jsstring) : jsstring :=
  rev (trimStart (rev (trimStart s))).

(** ** Numbers as text

    [n.toString(10)] of a non-negative integer is its decimal numeral. *)

Fixpoint uint_units (d : Decimal.uint) : jsstring :=
  match d with
  | Decimal.Nil => []
  | Decimal.D0 d => 48%N :: uint_units d
  | Decimal.D1 d => 49%N :: uint_units d
  | Decimal.D2 d => 50%N :: uint_units d
  | Decimal.D3 d => 51%N :: uint_units d
  | Decimal.D4 d => 52%N :: uint_units d
  | Decimal.D5 d => 53%N :: uint_units d
  | Decimal.D6 d => 54%N :: uint_units d
  | Decimal.D7 d => 55%N :: uint_units d
  | Decimal.D8 d => 56%N :: uint_units d
  | Decimal.D9 d => 57%N :: uint_units d
  end.

Definition toString10 (n : N) : jsstring := uint_units (N.to_uint n).

(** The unit of the decimal digit [d] (for [d < 10]). *)
Definition digit (d : N) : N := (48 + d)%N.

(** ** Regular expressions

    The patterns of the source are sequences of character classes, each
    taken exactly [n] times, one or more times greedily ([+]) or one or
    more times lazily ([+?]), some of them inside a capture group.  The
    matcher below is the backtracking matcher of ECMAScript restricted to
    such patterns: [greedy_plus] tries the longest repetition first,
    [lazy_plus] the shortest, and each falls back to the next candidate
    when the rest of the pattern fails. *)

Inductive quantifier :=
| Exactly (n : nat)
| Plus
| PlusLazy.

Record atom := Atom {
  accepts : N → bool;
  quant : quantifier;
  captures : bool
}.

Definition emit (a : atom) (m : jsstring) (groups : list jsstring) :
  list jsstring :=
  if captures a then m :: groups else groups.

Fixpoint repeat_exact (cls : N → bool) (n : nat) (s : jsstring) :
  option (jsstring * jsstring) :=
  match n with
  | O => Some ([], s)
  | S n' =>
    match s with
    | c :: s' =>
      if cls c then
        match repeat_exact cls n' s' with
        | Some (m, r) => Some (c :: m, r)
        | None => None
        end
      else None
    | [] => None
    end
  end.

Fixpoint greedy_plus (cls : N → bool)
    (k : jsstring → jsstring → option (list jsstring))
    (acc s : jsstring) : option (list jsstring) :=
  match s with
  | c :: s' =>
    if cls c then
      match greedy_plus cls k (acc ++ [c]) s' with
      | Some g => Some g
      | None => k (acc ++ [c]) s'
      end
    else None
  | [] => None
  end.

Fixpoint lazy_plus (cls : N → bool)
    (k : jsstring → jsstring → option (list jsstring))
    (acc s : jsstring) : option (list jsstring) :=
  match s with
  | c :: s' =>
    if cls c then
      match k (acc ++ [c]) s' with
      | Some g => Some g
      | None => lazy_plus cls k (acc ++ [c]) s'
      end
    else None
  | [] => None
  end.

(** The pattern anchored at the head of [s]; the result is the list of
    the captured groups, in the order of the pattern. *)
Fixpoint match_here (re : list atom) (s : jsstring) :
  option (list jsstring) :=
  match re with
  | [] => Some []
  | a :: re' =>
    match quant a with
    | Exactly n =>
      match repeat_exact (accepts a) n s with
      | Some (m, r) => emit a m <$> match_here re' r
      | None => None
      end
    | Plus =>
      greedy_plus (accepts a) (λ m r, emit a m <$> match_here re' r) [] s
    | PlusLazy =>
      lazy_plus (accepts a) (λ m r, emit a m <$> match_here re' r) [] s
    end
  end.

(** [s.match(re)] without the [g] flag: the leftmost position at which the
    pattern matches. *)
Fixpoint String_match (re : list atom) (s : jsstring) :
  option (list jsstring) :=
  match match_here re s with
  | Some g => Some g
  | None =>
    match s with
    | _ :: s' => String_match re s'
    | [] => None
    end
  end.

(** [m[i]] for a capture group [i >= 1]. *)
Definition group (m : list jsstring) (i : nat) : jsstring :=
  nth (i - 1) m [].

Definition lit (c : N) : atom := Atom (N.eqb c) (Exactly 1) false.

(** [.] without the [s] flag: any unit but a line terminator. *)
Definition dot (c : N) : bool := negb (isLineTerminator c).
(** [\d] *)
Definition isDigit (c : N) : bool := (48 <=? c)%N && (c <=? 57)%N.
(** [[A-Z0-9]] *)
Definition isUpperOrDigit (c : N) : bool :=
  ((65 <=? c)%N && (c <=? 90)%N) || isDigit c.

(** [/#([A-Z0-9]+)%/] *)
Definition ack_re : list atom :=
  [lit HASH; Atom isUpperOrDigit Plus true; lit PERCENT].

(** [/#(.+?)#(\d{2})%/] *)
Definition data_re : list atom :=
  [lit HASH; Atom dot PlusLazy true; lit HASH;
   Atom isDigit (Exactly 2) true; lit PERCENT].

(** ** Results of code that may throw *)

Inductive error :=
| InvalidResponseFormat (ascii : jsstring)
| ChecksumValidationFailed (expected got content : jsstring)
| CommandFailed (ascii : jsstring)
| TypeError.

Inductive result (A : Type) :=
| Ok (a : A)
| Throw (e : error).
Arguments Ok {A} a.
Arguments Throw {A} e.

Global Instance result_ret : MRet result := λ _ a, Ok a.
Global Instance result_bind : MBind result := λ _ _ f r,
  match r with
  | Ok a => f a
  | Throw e => Throw e
  end.

(** The reply record that both variants of [parseResponse] return. *)
Record DecodedReply := {
  command : jsstring;
  data : jsstring;
  checksum : option jsstring;
  isSimpleAck : bool
}.

(** ** Numbers and the inherited helpers

    The sources compute on IEEE doubles.  The embedding keeps the number
    type and its operations abstract, so that every statement below holds
    for the arithmetic of the runtime, whatever it rounds. *)

Class JSNumber (number : Type) := {
  num_of_Z : Z → number;                   (* an integer literal *)
  num_sub : number → number → number;      (* [a - b] *)
  num_mul : number → number → number;      (* [a * b] *)
  num_div : number → number → number;      (* [a / b] *)
  num_ge : number → number → bool;         (* [a >= b] *)
  num_gt : number → number → bool;         (* [a > b] *)
  toFixed : number → nat → jsstring;       (* [a.toFixed(d)] *)
  floor_toString : number → jsstring;      (* [Math.floor(a).toString()] *)
  parseFloat : jsstring → number
}.

(** The members that both dispenser classes inherit from [BaseDispenser],
    whose source is not part of the repository snapshot. *)
Class BaseDispenser (number : Type) := {
  hex2a : jsstring → jsstring;
  toFixedNumber : number → nat → number;
  hexToNumber : jsstring → number;
  doubleToHex : number → jsstring;
  hexStringToByte : jsstring → nat → Z
}.

(** ** The event loop seen by [dispenserResponse]

    [innerByteTimeoutParser] is an event emitter, [setTimeout] arms a
    timer and the promise records the calls of [resolve] and [reject].
    Every call of [dispenserResponse] creates one handler, one timer and
    one promise; they share the identity [id] of the call. *)

Inductive settlement :=
| Resolved (res : jsstring)
| Rejected (message : jsstring).

Record runtime := {
  next_id : nat;                     (* calls made so far *)
  listeners : list nat;              (* 'data' listeners, in order *)
  timers : list (nat * N);           (* armed timers and their delay *)
  settled : list (nat * settlement)  (* calls of resolve and reject *)
}.

Definition runtime_init : runtime :=
  {| next_id := 0; listeners := []; timers := []; settled := [] |}.

Definition setTimeout (id : nat) (ms : N) (rt : runtime) : runtime :=
  {| next_id := next_id rt; listeners := listeners rt;
     timers := timers rt ++ [(id, ms)]; settled := settled rt |}.

Definition clearTimeout (id : nat) (rt : runtime) : runtime :=
  {| next_id := next_id rt; listeners := listeners rt;
     timers := filter (λ t, t.1 ≠ id) (timers rt); settled := settled rt |}.

Definition once (id : nat) (rt : runtime) : runtime :=
  {| next_id := next_id rt; listeners := listeners rt ++ [id];
     timers := timers rt; settled := settled rt |}.

Definition removeListener (id : nat) (rt : runtime) : runtime :=
  {| next_id := next_id rt; listeners := filter (λ l, l ≠ id) (listeners rt);
     timers := timers rt; settled := settled rt |}.

Definition settle (id : nat) (o : settlement) (rt : runtime) : runtime :=
  {| next_id := next_id rt; listeners := listeners rt;
     timers := timers rt; settled := settled rt ++ [(id, o)] |}.

Definition resolve (id : nat) (res : jsstring) : runtime → runtime :=
  settle id (Resolved res).
Definition reject (id : nat) (message : jsstring) : runtime → runtime :=
  settle id (Rejected message).

(** The state of a promise: the first call of [resolve] or [reject]
    decides, later calls are ignored. *)
Definition promise_state (id : nat) (rt : runtime) : option settlement :=
  snd <$> head (filter (λ p, p.1 = id) (settled rt)).

(** How many times [resolve] or [reject] was called for the promise. *)
Definition settle_count (id : nat) (rt : runtime) : nat :=
  length (filter (λ p, p.1 = id) (settled rt)).

(** [buffer.toString('hex')]: two lower-case digits per byte. *)
Definition hex_digit (d : N) : N :=
  if (d <? 10)%N then (48 + d)%N else (87 + d)%N.

Definition Buffer_toString_hex (bytes : list N) : jsstring :=
  flat_map (λ b, [hex_digit ((b mod 256) / 16); hex_digit (b mod 16)]%N) bytes.

(** ** The Neogi dispenser, first variant
    ([src/dispenser/Neogi.ts], first class of the file) *)

Module Neogi.

Record StatusReply := { state : jsstring }.
Record RunningVolume (number : Type) := { volume : number }.
Arguments volume {number} _.
Record OrderProgress (number : Type) := {
  status : bool;
  percentage : number;
  dispensedQty : number
}.
Arguments status {number} _.
Arguments percentage {number} _.
Arguments dispensedQty {number} _.

Section Neogi.
Context {number : Type} `{!JSNumber number, !BaseDispenser number}.

(** The loop adds [charCodeAt(i)] for [i = 0 .. length - 1]; the sum
    stays far below 2^53, so the double holds it exactly. *)
Definition calculateChecksum (data : jsstring) : jsstring :=
  let sum :=
    foldl (λ sum i, (sum + charCodeAt data i)%N) 0%N
          (seq 0 (length data)) in
  let checksum := padStart (toString10 (sum mod 100)) 2 ZERO in
  checksum.

Definition parseResponse (res : jsstring) : result DecodedReply :=
  let ascii := if startsWith res HASH then res else hex2a res in
  let simple_ack :=
    if negb (includes ascii HASH 1) then
      match String_match ack_re ascii with
      | Some m =>
        Some {| command := if (2 <=? length (group m 1))%nat
                           then substring (group m 1) 0 2 else group m 1;
                data := if (2 <? length (group m 1))%nat
                        then substring_from (group m 1) 2 else [];
                checksum := None;
                isSimpleAck := true |}
      | None => None
      end
    else None in
  match simple_ack with
  | Some reply => Ok reply
  | None =>
    match String_match data_re ascii with
    | None => Throw (InvalidResponseFormat ascii)
    | Some m =>
      let content := group m 1 in
      let checksum := group m 2 in
      let contentWithHash := content ++ [HASH] in
      let calculatedChecksum := calculateChecksum contentWithHash in
      if decide (calculatedChecksum ≠ checksum) then
        Throw (ChecksumValidationFailed calculatedChecksum checksum content)
      else
        Ok {| command := substring content 0 2;
              data := substring_from content 2;
              checksum := Some checksum;
              isSimpleAck := false |}
    end
  end.

Definition buildCommand (cmd : jsstring) : jsstring := cmd ++ [CR].

Definition buildCommandWithChecksum (data : jsstring) : jsstring :=
  let checksum := calculateChecksum data in
  [HASH] ++ data ++ [HASH] ++ checksum ++ [PERCENT].

(** An absent or empty [vehicleNo] is falsy; [mode] defaults to ['*']. *)
Definition buildPresetCommand (value : number)
    (vehicleNo : option jsstring) (mode : option jsstring) : jsstring :=
  let mode := default (js "*") mode in
  let volumeStr := padStart (toFixed value 2) 7 ZERO in
  let vehicle :=
    match vehicleNo with
    | Some (c :: v) => substring (padEnd (c :: v) 10 SPACE) 0 10
    | _ => js "          "
    end in
  let data := js "SL" ++ volumeStr ++ js "$" ++ mode ++ vehicle in
  buildCommandWithChecksum data.

(** The handler of [dispenserResponse]; logging has no effect on the
    state that is modelled. *)
Definition handler (id : nat) (data : list N) (rt : runtime) : runtime :=
  let rt := clearTimeout id rt in
  let res := Buffer_toString_hex data in
  resolve id res rt.

Definition timeout_callback (id : nat) (timeoutMs : N) (rt : runtime) :
  runtime :=
  let rt := removeListener id rt in
  reject id (js "Dispenser response timed out after "
             ++ toString10 timeoutMs ++ js "ms") rt.

(** The executor of the promise runs at once: it arms the timer and
    only then registers the single-shot listener. *)
Definition dispenserResponse (timeoutMs : option N) (rt : runtime) :
  nat * runtime :=
  let timeoutMs := default 20000%N timeoutMs in
  let id := next_id rt in
  let rt := {| next_id := S id; listeners := listeners rt;
               timers := timers rt; settled := settled rt |} in
  let rt := setTimeout id timeoutMs rt in
  let rt := once id rt in
  (id, rt).

(** What the event loop may do next: the program calls
    [dispenserResponse], the parser emits 'data', or an armed timer
    expires. *)
Inductive event :=
| Call (timeoutMs : option N)
| Data (bytes : list N)
| Expire (id : nat).

(** [emit('data', bytes)] walks a copy of the listener list; a listener
    registered with [once] is removed before its handler runs. *)
Definition emit_data (bytes : list N) (rt : runtime) : runtime :=
  foldl (λ rt id, handler id bytes (removeListener id rt)) rt
        (listeners rt).

(** Only an armed timer expires; it leaves the timer list and runs its
    callback. *)
Definition expire (id : nat) (rt : runtime) : runtime :=
  match list_find (λ t, t.1 = id) (timers rt) with
  | Some (_, (_, timeoutMs)) =>
    timeout_callback id timeoutMs (clearTimeout id rt)
  | None => rt
  end.

Definition step (rt : runtime) (ev : event) : runtime :=
  match ev with
  | Call timeoutMs => (dispenserResponse timeoutMs rt).2
  | Data bytes => emit_data bytes rt
  | Expire id => expire id rt
  end.

Definition run (evs : list event) (rt : runtime) : runtime :=
  foldl step rt evs.

Definition processStatus (res : jsstring) : result StatusReply :=
  parsed ← parseResponse res;
  let state := trim (data parsed) in
  Ok {| state := state |}.

Definition processRunningVolume (res : jsstring) :
  result (RunningVolume number) :=
  parsed ← parseResponse res;
  let volume := parseFloat (trim (data parsed)) in
  Ok {| volume := volume |}.

Definition isIdle (res : jsstring) : result bool :=
  status ← processStatus res;
  Ok (bool_decide (state status = js "IDLE")).

Definition isDispensing (res : jsstring) : result bool :=
  status ← processStatus res;
  Ok (bool_decide (state status = js "DISP")).

(** [try { processStatus(res); return true } catch { return false }] *)
Definition isOnline (res : jsstring) : bool :=
  match processStatus res with
  | Ok _ => true
  | Throw _ => false
  end.

Definition isOrderComplete (res : jsstring) (quantity : number) :
  result (OrderProgress number) :=
  volumeData ← processRunningVolume res;
  let dispensed := volume volumeData in
  let percentage := num_mul (num_div dispensed quantity) (num_of_Z 100) in
  Ok {| status := num_ge dispensed quantity;
        percentage := toFixedNumber percentage 2;
        dispensedQty := toFixedNumber dispensed 2 |}.
End Neogi.

End Neogi.

(** ** The Neogi dispenser, second variant
    ([src/dispenser/Neogi.ts], second class of the file)

    It differs from the first one in the scope of the checksum that
    [parseResponse] recomputes and in the layout of the preset command;
    it inherits [dispenserResponse] from the base class. *)

Module Neogi2.

Record StatusReply := { state : jsstring }.

Section Neogi2.
Context {number : Type} `{!JSNumber number, !BaseDispenser number}.

Definition calculateChecksum (data : jsstring) : jsstring :=
  let sum :=
    foldl (λ sum i, (sum + charCodeAt data i)%N) 0%N
          (seq 0 (length data)) in
  padStart (toString10 (sum mod 100)) 2 ZERO.

Definition parseResponse (res : jsstring) : result DecodedReply :=
  let ascii := if startsWith res HASH then res else hex2a res in
  let simple_ack :=
    if negb (includes ascii HASH 1) then
      match String_match ack_re ascii with
      | Some m =>
        Some {| command := if (2 <=? length (group m 1))%nat
                           then substring (group m 1) 0 2 else group m 1;
                data := if (2 <? length (group m 1))%nat
                        then substring_from (group m 1) 2 else [];
                checksum := None;
                isSimpleAck := true |}
      | None => None
      end
    else None in
  match simple_ack with
  | Some reply => Ok reply
  | None =>
    match String_match data_re ascii with
    | None => Throw (InvalidResponseFormat ascii)
    | Some m =>
      let content := group m 1 in
      let checksum := group m 2 in
      let calculatedChecksum := calculateChecksum content in
      if decide (calculatedChecksum ≠ checksum) then
        Throw (ChecksumValidationFailed calculatedChecksum checksum content)
      else
        Ok {| command := substring content 0 2;
              data := substring_from content 2;
              checksum := Some checksum;
              isSimpleAck := false |}
    end
  end.

Definition buildCommand (cmd : jsstring) : jsstring := cmd ++ [CR].

Definition buildCommandWithChecksum (data : jsstring) : jsstring :=
  let checksum := calculateChecksum data in
  [HASH] ++ data ++ [HASH] ++ checksum ++ [PERCENT].

(** [volumeValue] is [Math.floor(value * 100)]. *)
Definition buildPresetCommand (value : number)
    (vehicleNo : option jsstring) : jsstring :=
  let volumeValue := num_mul value (num_of_Z 100) in
  let paddedValue := padStart (floor_toString volumeValue) 8 ZERO in
  let vehicle :=
    match vehicleNo with
    | Some (c :: v) => substring (padEnd (c :: v) 12 SPACE) 0 12
    | _ => js "            "
    end in
  let data := js "SL" ++ paddedValue ++ vehicle in
  buildCommandWithChecksum data.

Definition processStatus (res : jsstring) : result StatusReply :=
  parsed ← parseResponse res;
  let state := trim (data parsed) in
  Ok {| state := state |}.

Definition isOnline (res : jsstring) : bool :=
  match processStatus res with
  | Ok _ => true
  | Throw _ => false
  end.
End Neogi2.

End Neogi2.

(** ** The TCS3000 dispenser (class [TCS3000]) *)

Module TCS3000.

Record StatusReply := { status : option jsstring }.
Record OrderProgress (number : Type) := {
  complete : bool;          (* the field [status] of the response *)
  percentage : number;
  dispensedQty : number
}.
Arguments complete {number} _.
Arguments percentage {number} _.
Arguments dispensedQty {number} _.

(** The serial connection, as the frames written to it so far. *)
Record connection := { written : list (list Z) }.

Definition connection_write (buffer : list Z) (conn : connection) :
  connection :=
  {| written := written conn ++ [buffer] |}.

(** [Buffer.from(array)] keeps the low eight bits of every element. *)
Definition Buffer_from (array : list Z) : list Z :=
  map (λ x, x mod 256)%Z array.

Definition totalizerBuffer : list Z :=
  Buffer_from [0x7e; 0x01; 0x00; 0x40; 0x1e; 0x00; 0x47]%Z.
Definition read_preset : list Z :=
  Buffer_from [0x7e; 0x01; 0x00; 0x40; 0x1f; 0x00; 0x83]%Z.
Definition read_sale : list Z :=
  Buffer_from [0x7e; 0x01; 0x00; 0x40; 0x2b; 0x00; 0x95]%Z.
Definition read_status : list Z :=
  Buffer_from [0x7e; 0x01; 0x00; 0x40; 0x1f; 0x00; 0x83]%Z.
Definition pump_start : list Z :=
  Buffer_from [0x7e; 0x01; 0x00; 0x40; 0x1f; 0x00; 0x83]%Z.
Definition pump_stop : list Z :=
  Buffer_from [0x7e; 0x01; 0x00; 0x20; 0x3b; 0x00; 0xdc]%Z.
Definition cancel_preset : list Z :=
  Buffer_from [0x7e; 0x01; 0x00; 0x20; 0x36; 0x00; 0x55]%Z.
Definition authorize : list Z :=
  Buffer_from [0x7e; 0x01; 0x00; 0x20; 0x3c; 0x01; 0x03; 0xa8]%Z.

Definition crc_array : list Z := [
  0; 94; 188; 226; 97; 63; 221; 131; 194; 156; 126; 32; 163; 253; 31; 65; 157; 195; 33; 127; 252; 162; 64; 30; 95; 1; 227; 189; 62;
  96; 130; 220; 35; 125; 159; 193; 66; 28; 254; 160; 225; 191; 93; 3; 128; 222; 60; 98; 190; 224; 2; 92; 223; 129; 99; 61; 124; 34;
  192; 158; 29; 67; 161; 255; 70; 24; 250; 164; 39; 121; 155; 197; 132; 218; 56; 102; 229; 187; 89; 7; 219; 133; 103; 57; 186; 228; 6;
  88; 25; 71; 165; 251; 120; 38; 196; 154; 101; 59; 217; 135; 4; 90; 184; 230; 167; 249; 27; 69; 198; 152; 122; 36; 248; 166; 68; 26;
  153; 199; 37; 123; 58; 100; 134; 216; 91; 5; 231; 185; 140; 210; 48; 110; 237; 179; 81; 15; 78; 16; 242; 172; 47; 113; 147; 205; 17;
  79; 173; 243; 112; 46; 204; 146; 211; 141; 111; 49; 178; 236; 14; 80; 175; 241; 19; 77; 206; 144; 114; 44; 109; 51; 209; 143; 12;
  82; 176; 238; 50; 108; 142; 208; 83; 13; 239; 177; 240; 174; 76; 18; 145; 207; 45; 115; 202; 148; 118; 40; 171; 245; 23; 73; 8; 86;
  180; 234; 105; 55; 213; 139; 87; 9; 235; 181; 54; 104; 138; 212; 149; 203; 41; 119; 244; 170; 72; 22; 233; 183; 85; 11; 136; 214;
  52; 106; 43; 117; 151; 201; 74; 20; 246; 168; 116; 42; 200; 150; 21; 75; 169; 247; 182; 232; 10; 84; 215; 137; 107; 53
]%Z.

(** [this.crc_array[i]]: [undefined] outside the table. *)
Definition crc_at (i : Z) : option Z :=
  if (0 <=? i)%Z then crc_array !! Z.to_nat i else None.

(** [crc ^ byte]: an [undefined] operand converts to 0; on the values that
    occur (below 2^31) the 32-bit exclusive or is [Z.lxor]. *)
Definition xor (crc : option Z) (byte : Z) : Z :=
  Z.lxor (default 0%Z crc) byte.

(** The indices [0, 2, 4, ...] below [n] of the second loop. *)
Definition steps_of_two (n : nat) : list nat :=
  filter (λ i, Nat.even i = true) (seq 0 n).

Section TCS3000.
Context {number : Type} `{!JSNumber number, !BaseDispenser number}.

Definition totalizer (conn : connection) : connection :=
  connection_write totalizerBuffer conn.
Definition readPreset (conn : connection) : connection :=
  connection_write read_preset conn.
Definition readSale (conn : connection) : connection :=
  connection_write read_sale conn.
Definition readStatus (conn : connection) : connection :=
  connection_write read_status conn.
Definition pumpStart (conn : connection) : connection :=
  connection_write pump_start conn.
Definition pumpStop (conn : connection) : connection :=
  connection_write pump_stop conn.
Definition authorizeSale (conn : connection) : connection :=
  connection_write authorize conn.
Definition cancelPreset (conn : connection) : connection :=
  connection_write cancel_preset conn.

Definition volumePrecursor : list Z :=
  [0x7e; 0x01; 0x00; 0x20; 0x38; 0x0b; 0x03; 0x03; 0xf7]%Z.

(** Both loops update the pair of [crc] and [buffer_array].  The line
    that logs the frame calls [toString] on every element and throws a
    [TypeError] on an [undefined] checksum; otherwise the frame is
    written. *)
Definition sendPreset (quantity : number) (conn : connection) :
  result connection :=
  let crc := Some 0%Z in
  let buffer_array := [] in
  let '(crc, buffer_array) :=
    foldl (λ '(crc, buffer_array) byte,
             (crc_at (xor crc byte), buffer_array ++ [byte]))
          (crc, buffer_array) volumePrecursor in
  let hexQuantity := doubleToHex quantity in
  let '(crc, buffer_array) :=
    foldl (λ '(crc, buffer_array) i,
             let byte := hexStringToByte hexQuantity i in
             (crc_at (xor crc byte), buffer_array ++ [byte]))
          (crc, buffer_array) (steps_of_two (length hexQuantity)) in
  match crc with
  | Some crc =>
    let buffer_array := buffer_array ++ [crc] in
    Ok (connection_write (Buffer_from buffer_array) conn)
  | None => Throw TypeError
  end.

Definition setPreset (quantity : number) (conn : connection) :
  result connection :=
  sendPreset quantity conn.

Definition processReadSale (res : jsstring) : number :=
  hexToNumber (slice_neg res 16 2).

Definition statusMap : gmap jsstring jsstring :=
  list_to_map [
    (js "00", js "ERROR");
    (js "01", js "IDLE");
    (js "02", js "ACTIVE");
    (js "03", js "AIR (Air detected)");
    (js "04", js "PAUSED");
    (js "05", js "STOPPED");
    (js "06", js "TCKT_PENDING");
    (js "07", js "PRINTING")
  ].

Definition processStatus (res : jsstring) : StatusReply :=
  let statusBit := slice_neg res 16 2 in
  {| status := statusMap !! statusBit |}.

(** Truthiness of a string or [undefined]. *)
Definition truthy (v : option jsstring) : bool :=
  match v with
  | Some (_ :: _) => true
  | _ => false
  end.

Definition isOnline (res : jsstring) : bool :=
  let status := processStatus res in
  if truthy (TCS3000.status status) then true else false.

Definition isIdle (res : jsstring) : bool :=
  let status := processStatus res in
  if decide (TCS3000.status status = Some (js "IDLE")) then true else false.

Definition isOrderComplete (res : jsstring) (quantity : number) :
  OrderProgress number :=
  let readsale := processReadSale res in
  if num_gt readsale (num_sub quantity (num_of_Z 1)) then
    {| complete := true;
       percentage :=
         toFixedNumber (num_mul (num_div readsale quantity) (num_of_Z 100)) 2;
       dispensedQty := toFixedNumber readsale 2 |}
  else
    {| complete := false;
       percentage :=
         toFixedNumber (num_mul (num_div readsale quantity) (num_of_Z 100)) 2;
       dispensedQty := toFixedNumber readsale 2 |}.
End TCS3000.

End TCS3000.

(** ** A decimal instance of the interfaces

    Exact rational arithmetic stands for the doubles of the runtime; it
    agrees with them on the short decimal quantities of the examples
    below.  It has no [NaN] and no infinities: text without a numeral
    parses to 0 and a division by 0 gives 0. *)

Module Model.

Definition hex_value (c : N) : option N :=
  if isDigit c then Some (c - 48)%N
  else if ((97 <=? c) && (c <=? 102))%N then Some (c - 87)%N
  else if ((65 <=? c) && (c <=? 70))%N then Some (c - 55)%N
  else None.

(** The value of the longest prefix of hexadecimal digits, as [parseInt]
    computes it for base 16. *)
Fixpoint hex_prefix (s : jsstring) : list N :=
  match s with
  | c :: s' =>
    match hex_value c with
    | Some d => d :: hex_prefix s'
    | None => []
    end
  | [] => []
  end.

Definition parseHex (s : jsstring) : N :=
  foldl (λ v d, (16 * v + d)%N) 0%N (hex_prefix s).

Fixpoint pairs (s : jsstring) (fuel : nat) : list jsstring :=
  match fuel, s with
  | S fuel, _ :: _ => take 2 s :: pairs (drop 2 s) fuel
  | _, _ => []
  end.

(** Modelled from the spec: [BaseDispenser.hex2a] is not part of the
    snapshot; the spec calls its input a hex-encoded byte string, so each
    pair of digits gives one unit of the text. *)
Definition hex2a (hex : jsstring) : jsstring :=
  map parseHex (pairs hex (length hex)).

(** Modelled from the spec: [BaseDispenser.hexStringToByte] is not part
    of the snapshot; it reads the byte written with two digits at index
    [i]. *)
Definition hexStringToByte (hex : jsstring) (i : nat) : Z :=
  Z.of_N (parseHex (take 2 (drop i hex))).

Definition pow10 (d : nat) : Z := (10 ^ Z.of_nat d)%Z.

(** [Math.floor(q * 10^d + 1/2)] *)
Definition scaled (q : Q) (d : nat) : Z :=
  Qfloor (q * inject_Z (pow10 d) + (1 # 2))%Q.

Definition unsigned_fixed (n : Z) (d : nat) : jsstring :=
  let whole := toString10 (Z.to_N (n / pow10 d)) in
  match d with
  | O => whole
  | _ => whole ++ js "."
         ++ padStart (toString10 (Z.to_N (n mod pow10 d))) d ZERO
  end.

(** [q.toFixed(d)]: the numeral with [d] decimals nearest to [q], a tie
    going to the larger one. *)
Definition toFixed (q : Q) (d : nat) : jsstring :=
  let n := scaled q d in
  if (n <? 0)%Z then js "-" ++ unsigned_fixed (- scaled (- q) d)%Z d
  else unsigned_fixed n d.

Definition floor_toString (q : Q) : jsstring :=
  let n := Qfloor q in
  if (n <? 0)%Z then js "-" ++ toString10 (Z.to_N (- n)) 
  else toString10 (Z.to_N n).

(** The decimal numeral at the head of the text: digits, then an optional
    point and more digits. *)
Definition digits_value (s : jsstring) : N :=
  foldl (λ v c, (10 * v + (c - 48))%N) 0%N s.

Fixpoint span_digits (s : jsstring) : jsstring * jsstring :=
  match s with
  | c :: s' =>
    if isDigit c then let '(ds, r) := span_digits s' in (c :: ds, r)
    else ([], s)
  | [] => ([], [])
  end.

Definition parseFloat (s : jsstring) : Q :=
  let s := trimStart s in
  let '(whole, rest) := span_digits s in
  let frac :=
    match rest with
    | 46%N :: r => (span_digits r).1
    | _ => []
    end in
  (inject_Z (Z.of_N (digits_value whole))
   + inject_Z (Z.of_N (digits_value frac)) / inject_Z (pow10 (length frac)))%Q.

(** Modelled from the spec: [BaseDispenser.toFixedNumber] is not part of
    the snapshot; the spec rounds half away from zero to the given number
    of decimals. *)
Definition toFixedNumber (q : Q) (d : nat) : Q :=
  if Qle_bool 0 q then (inject_Z (scaled q d) / inject_Z (pow10 d))%Q
  else (- (inject_Z (scaled (- q) d) / inject_Z (pow10 d)))%Q.

(** The sixteen digits of a 64-bit word, most significant first. *)
Definition hex16 (w : N) : jsstring :=
  map (λ i, hex_digit ((w / 16 ^ N.of_nat (15 - i)) mod 16)%N) (seq 0 16).

(** Modelled from the spec: [BaseDispenser.doubleToHex] is not part of
    the snapshot; the spec calls its result the hexadecimal byte
    representation of the quantity, here the IEEE 754 binary64 word of a
    positive quantity in the normal range whose significand needs no
    rounding, and the zero word otherwise. *)
Definition doubleToHex (q : Q) : jsstring :=
  let num := Qnum (Qred q) in
  let den := Zpos (Qden (Qred q)) in
  if (0 <? num)%Z then
    let e := (Z.log2 num - Z.log2 den
              - (if (num * 2 ^ Z.log2 den <? den * 2 ^ Z.log2 num)%Z
                 then 1 else 0))%Z in
    let m := if (0 <=? 52 - e)%Z
             then (num * 2 ^ (52 - e) / den)%Z
             else (num / (den * 2 ^ (e - 52)))%Z in
    if ((-1022 <=? e) && (e <=? 1023))%Z
    then hex16 (Z.to_N ((e + 1023) * 2 ^ 52 + (m - 2 ^ 52)))
    else hex16 0
  else hex16 0.

(** Modelled from the spec: [BaseDispenser.hexToNumber] is not part of
    the snapshot; it reads the binary64 word back (normal range only). *)
Definition hexToNumber (hex : jsstring) : Q :=
  let w := Z.of_N (parseHex hex) in
  let e := ((w / 2 ^ 52) mod 2 ^ 11)%Z in
  let m := (w mod 2 ^ 52 + 2 ^ 52)%Z in
  if (e =? 0)%Z then 0%Q
  else if (0 <=? e - 1075)%Z then inject_Z (m * 2 ^ (e - 1075))
  else (inject_Z m / inject_Z (2 ^ (1075 - e)))%Q.

Definition decimal : JSNumber Q :=
  Build_JSNumber Q inject_Z Qminus Qmult Qdiv
    (λ a b, Qle_bool b a) (λ a b, negb (Qle_bool a b))
    toFixed floor_toString parseFloat.

Definition base : BaseDispenser Q :=
  Build_BaseDispenser Q hex2a toFixedNumber hexToNumber doubleToHex
    hexStringToByte.

End Model.


(** ** Further string operations *)

(** [s.startsWith(p)] for any search string. *)
Fixpoint isPrefixOf (p s : jsstring) : bool :=
  match p, s with
  | [], _ => true
  | c :: p', x :: s' => N.eqb c x && isPrefixOf p' s'
  | _ :: _, [] => false
  end.

(** [s.includes(sub)] for any search string. *)
Fixpoint includes_str (s sub : jsstring) : bool :=
  isPrefixOf sub s
  || match s with
     | _ :: s' => includes_str s' sub
     | [] => false
     end.

(** [Buffer.from(text, 'ascii')]: one byte per code unit, its low eight
    bits. *)
Definition Buffer_from_ascii (text : jsstring) : list N :=
  (λ c, c mod 256)%N <$> text.

(** ** The Neogi dispenser, first variant: commands and the remaining
    processing methods *)

Module NeogiCatalog.

(** The connection, as the buffers written so far, and the event loop. *)
Record io := {
  sent : list (list N);
  loop : runtime
}.

Section NeogiCatalog.
Context {number : Type} `{!JSNumber number, !BaseDispenser number}.

(** The commands pass strings, so [write] converts from ASCII. *)
Definition write (data : jsstring) (st : io) : io :=
  {| sent := sent st ++ [Buffer_from_ascii data]; loop := loop st |}.

(** [await this.write(cmd); return await this.dispenserResponse()]: the
    promise of [write] is already resolved, so no timer or data event runs
    between the write and the registration of the listener.  The result is
    the identity of the pending call. *)
Definition exchange (cmd : jsstring) (st : io) : nat * io :=
  let st := write cmd st in
  let '(id, rt) := Neogi.dispenserResponse None (loop st) in
  (id, {| sent := sent st; loop := rt |}).

Definition totalizer : io → nat * io :=
  exchange (Neogi.buildCommand (js "VT")).
Definition readStatus : io → nat * io :=
  exchange (Neogi.buildCommand (js "ST")).
Definition setPreset (quantity : number) : io → nat * io :=
  exchange (Neogi.buildPresetCommand quantity None None).
Definition cancelPreset : io → nat * io :=
  exchange (Neogi.buildCommand (js "CT")).
Definition readSale : io → nat * io :=
  exchange (Neogi.buildCommand (js "RV")).
Definition pumpStop : io → nat * io :=
  exchange (Neogi.buildCommand (js "TP")).
Definition suspendSale : io → nat * io :=
  exchange (Neogi.buildCommand (js "TP")).
Definition resumeSale : io → nat * io :=
  exchange (Neogi.buildCommand (js "SL")).
Definition clearSale : io → nat * io :=
  exchange (Neogi.buildCommand (js "CT")).
Definition switchToRemote : io → nat * io :=
  exchange (Neogi.buildCommand (js "DM")).
Definition switchToLocal : io → nat * io :=
  exchange (Neogi.buildCommand (js "AM")).

Definition processTotalizer (res : jsstring) : result number :=
  parsed ← Neogi.parseResponse res;
  let value := parseFloat (trim (data parsed)) in
  Ok value.

Definition processCommand (res : jsstring) : result bool :=
  let ascii := if startsWith res HASH then res else hex2a res in
  if includes_str ascii (js "#OK#") || includes_str ascii (js "OK")
  then Ok true
  else Throw (CommandFailed ascii).

Definition isReadyForPreset (res : jsstring) : result bool :=
  status ← Neogi.processStatus res;
  Ok (bool_decide (Neogi.state status = js "IDLE")).

Definition isSaleCloseable (res : jsstring) : result bool :=
  status ← Neogi.processStatus res;
  Ok (bool_decide (Neogi.state status = js "IDLE")).

End NeogiCatalog.

End NeogiCatalog.

(** ** The TCS3000 dispenser: the remaining frames, [processCommand] and
    the status predicates *)

Module TCS3000Catalog.

Definition clear_sale : list Z :=
  [0x7e; 0x01; 0x00; 0x20; 0x3e; 0x00; 0x23]%Z.
Definition suspend_sale : list Z :=
  [0x7e; 0x01; 0x00; 0x20; 0x39; 0x00; 0x4d]%Z.
Definition resume_sale : list Z :=
  [0x7e; 0x01; 0x00; 0x20; 0x3a; 0x00; 0x18]%Z.

Definition suspendSale (conn : TCS3000.connection) : TCS3000.connection :=
  TCS3000.connection_write suspend_sale conn.
Definition resumeSale (conn : TCS3000.connection) : TCS3000.connection :=
  TCS3000.connection_write resume_sale conn.
Definition clearSale (conn : TCS3000.connection) : TCS3000.connection :=
  TCS3000.connection_write clear_sale conn.

(** [processCommand(res, args, fnName)]; [args] is not used.  [s[i]] of a
    string is [undefined] past its end. *)
Definition processCommand (res : jsstring) (fnName : jsstring) : bool :=
  if decide (fnName = js "suspendSale") then
    if includes_str res (js "0043") || includes_str res (js "0023")
    then true else false
  else if decide (fnName = js "resumeSale") then
    if includes_str res (js "0023") then true else false
  else if decide (fnName = js "authorizeSale") then
    let commandData := drop 14 res in
    bool_decide (commandData !! 1 = Some 51%N)
  else if decide (fnName = js "pumpStop") then
    let errorBytes := drop 12 res in
    bool_decide (errorBytes !! 0 = Some 48%N)
    && bool_decide (errorBytes !! 1 = Some 48%N)
  else if decide (fnName = js "printReceipt") then
    bool_decide (res = js "true")
  else
    if includes_str res (js "0011") || includes_str res (js "0064")
       || includes_str res (js "0044")
    then true else false.

Definition isPumpStopped (res : jsstring) : bool :=
  let status := TCS3000.processStatus res in
  if decide (TCS3000.status status = Some (js "STOPPED")) then true
  else false.

Definition isDispensing (res : jsstring) : bool :=
  let status := TCS3000.processStatus res in
  if decide (TCS3000.status status = Some (js "ACTIVE")) then true
  else false.

Definition isReadyForPreset (res : jsstring) : bool :=
  let dispenserStatus := TCS3000.processStatus res in
  if decide (TCS3000.status dispenserStatus = Some (js "IDLE")) then true
  else false.

(** [['STOPPED', 'TCKT_PENDING'].includes(status)] *)
Definition isSaleCloseable (res : jsstring) : bool :=
  let dispenserStatus := TCS3000.processStatus res in
  if decide (TCS3000.status dispenserStatus
             ∈ [Some (js "STOPPED"); Some (js "TCKT_PENDING")])
  then true else false.

Definition isSaleSuspended (res : jsstring) : bool :=
  let dispenserStatus := TCS3000.processStatus res in
  if decide (TCS3000.status dispenserStatus = Some (js "PAUSED")) then true
  else false.

End TCS3000Catalog.

(** ** The protocol tester of [src/examples/neogi-checksum-test.ts] *)

Module Tester.

Record Reply := {
  command : jsstring;
  data : jsstring;
  checksum : jsstring
}.

Fixpoint hex_units (d : Hexadecimal.uint) : jsstring :=
  match d with
  | Hexadecimal.Nil => []
  | Hexadecimal.D0 d => 48%N :: hex_units d
  | Hexadecimal.D1 d => 49%N :: hex_units d
  | Hexadecimal.D2 d => 50%N :: hex_units d
  | Hexadecimal.D3 d => 51%N :: hex_units d
  | Hexadecimal.D4 d => 52%N :: hex_units d
  | Hexadecimal.D5 d => 53%N :: hex_units d
  | Hexadecimal.D6 d => 54%N :: hex_units d
  | Hexadecimal.D7 d => 55%N :: hex_units d
  | Hexadecimal.D8 d => 56%N :: hex_units d
  | Hexadecimal.D9 d => 57%N :: hex_units d
  | Hexadecimal.Da d => 97%N :: hex_units d
  | Hexadecimal.Db d => 98%N :: hex_units d
  | Hexadecimal.Dc d => 99%N :: hex_units d
  | Hexadecimal.Dd d => 100%N :: hex_units d
  | Hexadecimal.De d => 101%N :: hex_units d
  | Hexadecimal.Df d => 102%N :: hex_units d
  end.

(** [n.toString(16)] of a non-negative integer. *)
Definition toString16 (n : N) : jsstring := hex_units (N.to_hex_uint n).

(** [s.toUpperCase()] on a hexadecimal numeral: the letters [a] to [z]
    become capitals, the digits stay. *)
Definition toUpperCase (s : jsstring) : jsstring :=
  (λ c, if ((97 <=? c) && (c <=? 122))%N then (c - 32)%N else c) <$> s.

(** [[0-9A-F]] *)
Definition isUpperHex (c : N) : bool :=
  isDigit c || ((65 <=? c) && (c <=? 70))%N.

(** [/#(.+?)#([0-9A-F]{2})%/] *)
Definition frame_re : list atom :=
  [lit HASH; Atom dot PlusLazy true; lit HASH;
   Atom isUpperHex (Exactly 2) true; lit PERCENT].

Definition calculateChecksum (data : jsstring) : jsstring :=
  let sum :=
    foldl (λ sum i, (sum + charCodeAt data i)%N) 0%N
          (seq 0 (length data)) in
  padStart (toUpperCase (toString16 (sum mod 256))) 2 ZERO.

(** The message of the checksum error of the tester names the two
    checksums only; its content part is left empty here. *)
Definition parseResponse (res : jsstring) : result Reply :=
  let ascii := res in
  match String_match frame_re ascii with
  | None => Throw (InvalidResponseFormat ascii)
  | Some m =>
    let content := group m 1 in
    let checksum := group m 2 in
    let calculatedChecksum := calculateChecksum content in
    if decide (calculatedChecksum ≠ checksum) then
      Throw (ChecksumValidationFailed calculatedChecksum checksum [])
    else
      Ok {| command := substring content 0 2;
            data := substring_from content 2;
            checksum := checksum |}
  end.

Definition buildCommand (cmd : jsstring) : jsstring := cmd ++ [CR].

End Tester.

(** ** The properties in the words of the specification *)

(** The decimal checksum: the sum of the character codes, modulo 100,
    written with two decimal digits. *)
Definition code_sum (text : jsstring) : N := foldr N.add 0%N text.

Definition decimalChecksum (text : jsstring) : jsstring :=
  let m := (code_sum text mod 100)%N in
  [digit (m / 10); digit (m mod 10)].

(** The CRC-8 accumulator: starting from 0, the running value is xored
    with each byte and substituted through the table. *)
Definition crc8 (bytes : list Z) : Z :=
  foldl (λ crc byte, nth (Z.to_nat (Z.lxor crc byte)) TCS3000.crc_array 0%Z)
        0%Z bytes.

(** The tail [#dd%] of the data pattern. *)
Definition data_tail : list atom :=
  [lit HASH; Atom isDigit (Exactly 2) true; lit PERCENT].

(** The two variants of [parseResponse] differ only in the text over
    which the checksum is recomputed; [parse_with] is their common shape,
    on the reply already converted to ASCII. *)
Definition parse_with (recompute : jsstring → jsstring) (ascii : jsstring) :
  result DecodedReply :=
  let simple_ack :=
    if negb (includes ascii HASH 1) then
      match String_match ack_re ascii with
      | Some m =>
        Some {| command := if (2 <=? length (group m 1))%nat
                           then substring (group m 1) 0 2 else group m 1;
                data := if (2 <? length (group m 1))%nat
                        then substring_from (group m 1) 2 else [];
                checksum := None;
                isSimpleAck := true |}
      | None => None
      end
    else None in
  match simple_ack with
  | Some reply => Ok reply
  | None =>
    match String_match data_re ascii with
    | None => Throw (InvalidResponseFormat ascii)
    | Some m =>
      let content := group m 1 in
      let checksum := group m 2 in
      if decide (recompute content ≠ checksum) then
        Throw (ChecksumValidationFailed (recompute content) checksum content)
      else
        Ok {| command := substring content 0 2;
              data := substring_from content 2;
              checksum := Some checksum;
              isSimpleAck := false |}
    end
  end.

(** The checksum scope of each variant. *)
Definition scope_with_hash (content : jsstring) : jsstring :=
  Neogi.calculateChecksum (content ++ [HASH]).
Definition scope_content (content : jsstring) : jsstring :=
  Neogi2.calculateChecksum content.

(** The response correlator.  A call of [dispenserResponse] is pending
    while its listener is attached, its timer is armed and neither
    [resolve] nor [reject] has been called; it is done with an outcome when
    the listener is detached, the timer is gone and the promise was settled
    exactly once, with that outcome. *)
Definition pending (id : nat) (ms : N) (rt : runtime) : Prop :=
  id ∈ listeners rt
  ∧ filter (λ t, t.1 = id) (timers rt) = [(id, ms)]
  ∧ filter (λ p, p.1 = id) (settled rt) = [].

Definition done_with (id : nat) (o : settlement) (rt : runtime) : Prop :=
  (id ∉ listeners rt)
  ∧ filter (λ t, t.1 = id) (timers rt) = []
  ∧ filter (λ p, p.1 = id) (settled rt) = [(id, o)].

(** The events that decide a pending call: incoming data, or the expiry
    of its own timer. *)
Definition settles (id : nat) (ev : Neogi.event) : bool :=
  match ev with
  | Neogi.Data _ => true
  | Neogi.Expire j => bool_decide (j = id)
  | Neogi.Call _ => false
  end.

Definition timeout_message (timeoutMs : N) : jsstring :=
  js "Dispenser response timed out after " ++ toString10 timeoutMs ++ js "ms".

(** What every reachable state of the event loop satisfies: each armed
    timer belongs to an attached listener, no call is both attached and
    settled or settled twice, and the identities in use are those of calls
    already made. *)
Record runtime_inv (rt : runtime) : Prop := {
  inv_timers : (timers rt).*1 = listeners rt;
  inv_nodup : NoDup (listeners rt ++ (settled rt).*1);
  inv_fresh : ∀ id, id ∈ listeners rt ++ (settled rt).*1 → id < next_id rt
}.

(** The table of [TCS3000.processStatus], as the list from which the map
    is built. *)
Definition status_table : list (jsstring * jsstring) :=
  [(js "00", js "ERROR"); (js "01", js "IDLE"); (js "02", js "ACTIVE");
   (js "03", js "AIR (Air detected)"); (js "04", js "PAUSED");
   (js "05", js "STOPPED"); (js "06", js "TCKT_PENDING");
   (js "07", js "PRINTING")].

(** The [Call] events of a history. *)
Definition is_call (ev : Neogi.event) : bool :=
  match ev with
  | Neogi.Call _ => true
  | _ => false
  end.

(** The tail [#hh%] of the pattern of the tester. *)
Definition hex_tail : list atom :=
  [lit HASH; Atom Tester.isUpperHex (Exactly 2) true; lit PERCENT].

(** * Proofs *)

(** Division and remainder by a constant are linear for [lia]. *)
Ltac Zify.zify_post_hook ::= Z.to_euclidean_division_equations.

(** ** The checksum of the ASCII protocol *)

Lemma charCode_loop (pre l : jsstring) (a : N) :
  foldl (λ sum i, (sum + charCodeAt (pre ++ l) i)%N) a
        (seq (length pre) (length l)) = (a + code_sum l)%N.
Proof.
  revert pre a. induction l as [|c l IH]; intros pre a; simpl.
  - lia.
  - unfold charCodeAt at 2. rewrite nth_middle.
    replace (pre ++ c :: l) with ((pre ++ [c]) ++ l)
      by (rewrite <- app_assoc; reflexivity).
    replace (S (length pre)) with (length (pre ++ [c]))
      by (rewrite length_app; simpl; lia).
    rewrite IH. lia.
Qed.

Lemma charCode_loop_all (data : jsstring) :
  foldl (λ sum i, (sum + charCodeAt data i)%N) 0%N (seq 0 (length data))
  = code_sum data.
Proof. exact (charCode_loop [] data 0). Qed.

Lemma two_digits_table :
  forallb (λ m, bool_decide (padStart (toString10 m) 2 ZERO
                             = [digit (m / 10); digit (m mod 10)]))
          (N.of_nat <$> seq 0 100) = true.
Proof. vm_compute. reflexivity. Qed.

Lemma two_digits (m : N) :
  (m < 100)%N →
  padStart (toString10 m) 2 ZERO = [digit (m / 10); digit (m mod 10)].
Proof.
  intros Hm. pose proof two_digits_table as Ht.
  rewrite forallb_forall in Ht.
  specialize (Ht m). rewrite bool_decide_eq_true in Ht. apply Ht.
  apply list_elem_of_In, list_elem_of_fmap. exists (N.to_nat m). split; [lia|].
  apply elem_of_seq. lia.
Qed.

Lemma calculateChecksum_spec (data : jsstring) :
  Neogi.calculateChecksum data = decimalChecksum data.
Proof.
  unfold Neogi.calculateChecksum, decimalChecksum.
  rewrite charCode_loop_all.
  apply two_digits. apply N.mod_lt. discriminate.
Qed.

Lemma calculateChecksum2_spec (data : jsstring) :
  Neogi2.calculateChecksum data = decimalChecksum data.
Proof.
  unfold Neogi2.calculateChecksum, decimalChecksum.
  rewrite charCode_loop_all.
  apply two_digits. apply N.mod_lt. discriminate.
Qed.

Lemma decimalChecksum_digits (text : jsstring) :
  ∃ d1 d2, decimalChecksum text = [d1; d2]
           ∧ isDigit d1 = true ∧ isDigit d2 = true.
Proof.
  unfold decimalChecksum. set (m := (code_sum text mod 100)%N).
  assert (m < 100)%N by (apply N.mod_lt; discriminate).
  clearbody m.
  exists (digit (m / 10)), (digit (m mod 10)). split; [reflexivity|].
  assert (m / 10 < 10)%N by (apply N.Div0.div_lt_upper_bound; lia).
  assert (m mod 10 < 10)%N by (apply N.mod_lt; discriminate).
  unfold isDigit, digit. split; apply andb_true_intro; split;
    apply N.leb_le; lia.
Qed.

(** C4. For every input string, both variants of [calculateChecksum]
    return exactly two characters: the tens digit and the units digit of
    the sum of the character codes taken modulo 100 (the decimal numeral
    padded on the left with '0' to width 2).  The function is total: it
    gives this value for every sequence of code units. *)
Theorem C4_calculateChecksum_decimal (data : jsstring) :
  let m := (code_sum data mod 100)%N in
  Neogi.calculateChecksum data = padStart (toString10 m) 2 ZERO
  ∧ Neogi2.calculateChecksum data = padStart (toString10 m) 2 ZERO
  ∧ padStart (toString10 m) 2 ZERO = [digit (m / 10); digit (m mod 10)]
  ∧ Neogi.calculateChecksum data = decimalChecksum data
  ∧ Neogi2.calculateChecksum data = decimalChecksum data
  ∧ length (Neogi.calculateChecksum data) = 2.
Proof.
  intros m.
  assert (Hm : (m < 100)%N) by (apply N.mod_lt; discriminate).
  pose proof (calculateChecksum_spec data) as H1.
  pose proof (calculateChecksum2_spec data) as H2.
  pose proof (two_digits m Hm) as H3.
  repeat split; try assumption.
  - rewrite H1, H3. reflexivity.
  - rewrite H2, H3. reflexivity.
  - rewrite H1. reflexivity.
Qed.

(** ** The matcher on the two patterns of [parseResponse] *)

Lemma greedy_plus_inv cls k acc s g :
  greedy_plus cls k acc s = Some g →
  ∃ tok r, tok ≠ [] ∧ s = tok ++ r ∧ Forall (λ c, cls c = true) tok
           ∧ k (acc ++ tok) r = Some g.
Proof.
  revert acc. induction s as [|c s IH]; intros acc; simpl; [discriminate|].
  destruct (cls c) eqn:Hc; [|discriminate].
  destruct (greedy_plus cls k (acc ++ [c]) s) as [g'|] eqn:Hg.
  - intros [= ->]. destruct (IH _ Hg) as (tok & r & _ & -> & Htok & Hk).
    exists (c :: tok), r. rewrite <- app_assoc in Hk.
    repeat split; [discriminate | by constructor | exact Hk].
  - intros Hk. exists [c], s. repeat split; [discriminate | | exact Hk].
    by repeat constructor.
Qed.

Lemma lazy_plus_inv cls k acc s g :
  lazy_plus cls k acc s = Some g →
  ∃ tok r, tok ≠ [] ∧ s = tok ++ r ∧ Forall (λ c, cls c = true) tok
           ∧ k (acc ++ tok) r = Some g.
Proof.
  revert acc. induction s as [|c s IH]; intros acc; simpl; [discriminate|].
  destruct (cls c) eqn:Hc; [|discriminate].
  destruct (k (acc ++ [c]) s) as [g'|] eqn:Hk.
  - intros [= ->]. exists [c], s. repeat split; [discriminate | | exact Hk].
    by repeat constructor.
  - intros Hg. destruct (IH _ Hg) as (tok & r & _ & -> & Htok & Hk').
    exists (c :: tok), r. rewrite <- app_assoc in Hk'.
    repeat split; [discriminate | by constructor | exact Hk'].
Qed.

(** The greedy repetition takes the whole run when the pattern goes on
    from there. *)
Lemma greedy_plus_longest cls k acc tok r g :
  tok ≠ [] →
  Forall (λ c, cls c = true) tok →
  match r with c :: _ => cls c = false | [] => True end →
  k (acc ++ tok) r = Some g →
  greedy_plus cls k acc (tok ++ r) = Some g.
Proof.
  intros Hne Htok Hr. revert acc Hne.
  induction Htok as [|c tok Hc Htok IH]; intros acc Hne Hk; [done|].
  simpl. rewrite Hc. destruct tok as [|c' tok].
  - simpl. replace (greedy_plus cls k (acc ++ [c]) r) with (@None (list jsstring)).
    + exact Hk.
    + destruct r as [|x r]; simpl; [done|]. by rewrite Hr.
  - rewrite (IH (acc ++ [c])); [done | discriminate |].
    by rewrite <- app_assoc.
Qed.

(** The lazy repetition stops at the first split from which the pattern
    goes on. *)
Lemma lazy_plus_first cls k acc tok r g :
  tok ≠ [] →
  Forall (λ c, cls c = true) tok →
  (∀ pre c post, tok = pre ++ c :: post → pre ≠ [] →
                 k (acc ++ pre) (c :: post ++ r) = None) →
  k (acc ++ tok) r = Some g →
  lazy_plus cls k acc (tok ++ r) = Some g.
Proof.
  intros Hne Htok. revert acc Hne.
  induction Htok as [|c tok Hc Htok IH]; intros acc Hne Hfail Hk; [done|].
  simpl. rewrite Hc. destruct tok as [|c' tok].
  - simpl. by rewrite Hk.
  - rewrite <- app_comm_cons. rewrite (Hfail [c] c' tok); [|done|discriminate].
    rewrite app_comm_cons. apply IH; [discriminate | | by rewrite <- app_assoc].
    intros pre x post Heq Hpre. rewrite <- app_assoc.
    apply (Hfail (c :: pre) x post); [by rewrite Heq | discriminate].
Qed.

Lemma match_here_lit c re s :
  match_here (lit c :: re) s =
  match s with
  | x :: s' => if N.eqb c x then match_here re s' else None
  | [] => None
  end.
Proof.
  destruct s as [|x s']; simpl; [done|].
  destruct (N.eqb c x); [|done]. by destruct (match_here re s').
Qed.

Lemma match_here_group_exact cls n re s :
  match_here (Atom cls (Exactly n) true :: re) s =
  match repeat_exact cls n s with
  | Some (m, r) => cons m <$> match_here re r
  | None => None
  end.
Proof. reflexivity. Qed.

Lemma repeat_exact_two cls s m r :
  repeat_exact cls 2 s = Some (m, r) →
  ∃ d1 d2, s = d1 :: d2 :: r ∧ m = [d1; d2]
           ∧ cls d1 = true ∧ cls d2 = true.
Proof.
  destruct s as [|d1 [|d2 s]]; simpl; try discriminate.
  - destruct (cls d1); discriminate.
  - destruct (cls d1) eqn:H1; [|discriminate].
    destruct (cls d2) eqn:H2; [|discriminate].
    intros [= <- <-]. by exists d1, d2.
Qed.

Lemma data_tail_inv r g :
  match_here data_tail r = Some g →
  ∃ d1 d2 post, r = HASH :: d1 :: d2 :: PERCENT :: post ∧ g = [[d1; d2]]
                ∧ isDigit d1 = true ∧ isDigit d2 = true.
Proof.
  unfold data_tail. rewrite match_here_lit.
  destruct r as [|x r]; [discriminate|].
  destruct (N.eqb_spec HASH x) as [<-|]; [|discriminate].
  rewrite match_here_group_exact.
  destruct (repeat_exact isDigit 2 r) as [[m r']|] eqn:Hd; [|discriminate].
  apply repeat_exact_two in Hd as (d1 & d2 & -> & -> & H1 & H2).
  rewrite match_here_lit. destruct r' as [|y post]; [discriminate|].
  destruct (N.eqb_spec PERCENT y) as [<-|]; [|discriminate].
  simpl. intros [= <-]. by exists d1, d2, post.
Qed.

Lemma data_tail_intro d1 d2 post :
  isDigit d1 = true → isDigit d2 = true →
  match_here data_tail (HASH :: d1 :: d2 :: PERCENT :: post) = Some [[d1; d2]].
Proof. intros H1 H2. simpl. by rewrite H1, H2. Qed.

Lemma data_tail_head r :
  match r with x :: _ => x ≠ HASH | [] => True end →
  match_here data_tail r = None.
Proof.
  unfold data_tail. rewrite match_here_lit. destruct r as [|x r]; [done|].
  intros Hx. by destruct (N.eqb_spec HASH x) as [<-|].
Qed.

Lemma data_re_unfold s :
  match_here data_re s =
  match s with
  | x :: s' =>
    if N.eqb HASH x
    then lazy_plus dot (λ m r, cons m <$> match_here data_tail r) [] s'
    else None
  | [] => None
  end.
Proof. unfold data_re. by rewrite match_here_lit. Qed.

Lemma data_re_inv s g :
  match_here data_re s = Some g →
  ∃ content d1 d2 post,
    s = HASH :: content ++ HASH :: d1 :: d2 :: PERCENT :: post
    ∧ g = [content; [d1; d2]] ∧ content ≠ []
    ∧ Forall (λ c, dot c = true) content
    ∧ isDigit d1 = true ∧ isDigit d2 = true.
Proof.
  rewrite data_re_unfold. destruct s as [|x s]; [discriminate|].
  destruct (N.eqb_spec HASH x) as [<-|]; [|discriminate].
  intros H. apply lazy_plus_inv in H as (content & r & Hne & -> & Hdot & Hk).
  cbv beta in Hk. change ([] ++ content) with content in Hk.
  destruct (match_here data_tail r) as [g'|] eqn:Ht; [|discriminate].
  apply data_tail_inv in Ht as (d1 & d2 & post & -> & -> & H1 & H2).
  injection Hk as <-. by exists content, d1, d2, post.
Qed.

(** A frame whose content holds no ['#'] and no line terminator matches
    with exactly that content. *)
Lemma data_re_frame content d1 d2 post :
  content ≠ [] →
  Forall (λ c, dot c = true ∧ c ≠ HASH) content →
  isDigit d1 = true → isDigit d2 = true →
  match_here data_re (HASH :: content ++ HASH :: d1 :: d2 :: PERCENT :: post)
  = Some [content; [d1; d2]].
Proof.
  intros Hne Hc H1 H2. rewrite data_re_unfold. simpl N.eqb. cbv iota.
  apply lazy_plus_first.
  - exact Hne.
  - eapply Forall_impl; [exact Hc|]. by intros c [? _].
  - intros pre c post' -> _. rewrite data_tail_head; [done|].
    apply Forall_app in Hc as [_ Hc]. by inversion Hc as [|?? [_ ?]].
  - by rewrite data_tail_intro.
Qed.

Lemma ack_re_unfold s :
  match_here ack_re s =
  match s with
  | x :: s' =>
    if N.eqb HASH x
    then greedy_plus isUpperOrDigit
           (λ m r, cons m <$> match_here [lit PERCENT] r) [] s'
    else None
  | [] => None
  end.
Proof. unfold ack_re. by rewrite match_here_lit. Qed.

Lemma percent_inv r g :
  match_here [lit PERCENT] r = Some g → ∃ post, r = PERCENT :: post ∧ g = [].
Proof.
  rewrite match_here_lit. destruct r as [|x post]; [discriminate|].
  destruct (N.eqb_spec PERCENT x) as [<-|]; [|discriminate].
  simpl. intros [= <-]. by exists post.
Qed.

Lemma ack_re_inv s g :
  match_here ack_re s = Some g →
  ∃ tok post, s = HASH :: tok ++ PERCENT :: post ∧ g = [tok] ∧ tok ≠ []
              ∧ Forall (λ c, isUpperOrDigit c = true) tok.
Proof.
  rewrite ack_re_unfold. destruct s as [|x s]; [discriminate|].
  destruct (N.eqb_spec HASH x) as [<-|]; [|discriminate].
  intros H. apply greedy_plus_inv in H as (tok & r & Hne & -> & Htok & Hk).
  cbv beta in Hk. change ([] ++ tok) with tok in Hk.
  destruct (match_here [lit PERCENT] r) as [g'|] eqn:Hp; [|discriminate].
  apply percent_inv in Hp as (post & -> & ->).
  injection Hk as <-. by exists tok, post.
Qed.

Lemma ack_re_intro tok post :
  tok ≠ [] → Forall (λ c, isUpperOrDigit c = true) tok →
  match_here ack_re (HASH :: tok ++ PERCENT :: post) = Some [tok].
Proof.
  intros Hne Htok. rewrite ack_re_unfold. simpl N.eqb. cbv iota.
  apply greedy_plus_longest; [done | done | reflexivity |].
  by rewrite match_here_lit.
Qed.

Lemma String_match_inv re s g :
  String_match re s = Some g →
  ∃ pre t, s = pre ++ t ∧ match_here re t = Some g.
Proof.
  induction s as [|c s IH]; simpl.
  - destruct (match_here re []) eqn:H; [|discriminate].
    intros [= ->]. by exists [], [].
  - destruct (match_here re (c :: s)) eqn:H.
    + intros [= ->]. by exists [], (c :: s).
    + intros Hs. destruct (IH Hs) as (pre & t & -> & Ht).
      by exists (c :: pre), t.
Qed.

Lemma String_match_head re s g :
  match_here re s = Some g → String_match re s = Some g.
Proof. intros H. destruct s; simpl; by rewrite H. Qed.

Lemma String_match_none re s :
  (∀ pre t, s = pre ++ t → match_here re t = None) →
  String_match re s = None.
Proof.
  induction s as [|c s IH]; intros H; simpl.
  - by rewrite (H [] []).
  - rewrite (H [] (c :: s)); [|done]. apply IH.
    intros pre t ->. by apply (H (c :: pre) t).
Qed.

Lemma includes_hash_intro (s : jsstring) pre post :
  s = pre ++ HASH :: post → pre ≠ [] → includes s HASH 1 = true.
Proof.
  intros -> Hne. destruct pre as [|x pre]; [done|].
  unfold includes. simpl. rewrite drop_0. apply existsb_exists.
  exists HASH. split; [|reflexivity]. apply in_or_app. right. by left.
Qed.

Lemma includes_hash_inv (x : N) (s : jsstring) :
  includes (x :: s) HASH 1 = false → HASH ∉ s.
Proof.
  unfold includes. simpl. rewrite drop_0. intros H Hin.
  apply not_true_iff_false in H. apply H, existsb_exists.
  exists HASH. split; [by apply list_elem_of_In | reflexivity].
Qed.

(** A reply that the data pattern matches holds a ['#'] after its first
    character, so the branch of the simple acknowledgement is not taken. *)
Lemma data_match_includes s g :
  String_match data_re s = Some g → includes s HASH 1 = true.
Proof.
  intros H. apply String_match_inv in H as (pre & t & -> & Ht).
  apply data_re_inv in Ht as (content & d1 & d2 & post & -> & _ & Hne & _).
  apply (includes_hash_intro _ (pre ++ HASH :: content)
           (d1 :: d2 :: PERCENT :: post)).
  - by rewrite <- app_assoc.
  - by destruct pre.
Qed.

(** ** The reply decoder *)

Section Decoder.
Context {number : Type} `{!JSNumber number, !BaseDispenser number}.

Lemma parseResponse_shape (res : jsstring) :
  Neogi.parseResponse res
  = parse_with scope_with_hash (if startsWith res HASH then res else hex2a res).
Proof. reflexivity. Qed.

Lemma parseResponse2_shape (res : jsstring) :
  Neogi2.parseResponse res
  = parse_with scope_content (if startsWith res HASH then res else hex2a res).
Proof. reflexivity. Qed.

Lemma parse_with_data recompute ascii m :
  String_match data_re ascii = Some m →
  parse_with recompute ascii =
  if decide (recompute (group m 1) = group m 2) then
    Ok {| command := take 2 (group m 1); data := drop 2 (group m 1);
          checksum := Some (group m 2); isSimpleAck := false |}
  else
    Throw (ChecksumValidationFailed (recompute (group m 1)) (group m 2)
                                    (group m 1)).
Proof.
  intros Hm. unfold parse_with.
  rewrite (data_match_includes _ _ Hm). simpl negb. cbv iota. rewrite Hm.
  destruct (decide (recompute (group m 1) ≠ group m 2)) as [Hne|Heq];
    destruct (decide (recompute (group m 1) = group m 2)) as [Heq'|Hne'];
    done.
Qed.

Lemma parse_with_checked recompute ascii r :
  parse_with recompute ascii = Ok r →
  isSimpleAck r = false →
  ∃ m, String_match data_re ascii = Some m
       ∧ command r ++ data r = group m 1
       ∧ checksum r = Some (group m 2)
       ∧ recompute (group m 1) = group m 2.
Proof.
  unfold parse_with.
  destruct (negb (includes ascii HASH 1)) eqn:Hinc.
  - destruct (String_match ack_re ascii) as [a|] eqn:Ha.
    + intros [= <-]. discriminate.
    + destruct (String_match data_re ascii) as [m|] eqn:Hm; [|discriminate].
      apply data_match_includes in Hm. rewrite Hm in Hinc. discriminate.
  - destruct (String_match data_re ascii) as [m|] eqn:Hm; [|discriminate].
    destruct (decide (recompute (group m 1) ≠ group m 2)) as [Hne|Heq];
      [discriminate|].
    intros [= <-] _. exists m. cbn [command data checksum].
    unfold substring, substring_from.
    rewrite drop_0. change (2 - 0) with 2.
    repeat split; [exact (take_drop 2 (group m 1)) | by apply dec_stable].
Qed.

(** C1. When the data pattern [#<CONTENT>#<2 digits>%] matches the reply
    (already converted to ASCII), [parseResponse] returns a reply with
    [isSimpleAck = false] exactly when the transmitted two digits equal the
    checksum that the variant recomputes (over the content and the closing
    ['#'] in the first variant, over the content in the second one), and
    throws the checksum-validation error otherwise.  Conversely every reply
    that is returned with [isSimpleAck = false] carries the recomputed
    checksum. *)
Theorem C1_checksum_gate (res : jsstring) :
  let ascii := if startsWith res HASH then res else hex2a res in
  (∀ m, String_match data_re ascii = Some m →
     let content := group m 1 in
     let transmitted := group m 2 in
     let reply := {| command := take 2 content; data := drop 2 content;
                     checksum := Some transmitted; isSimpleAck := false |} in
     (Neogi.calculateChecksum (content ++ [HASH]) = transmitted →
        Neogi.parseResponse res = Ok reply)
     ∧ (Neogi.calculateChecksum (content ++ [HASH]) ≠ transmitted →
        Neogi.parseResponse res =
        Throw (ChecksumValidationFailed
                 (Neogi.calculateChecksum (content ++ [HASH]))
                 transmitted content))
     ∧ (Neogi2.calculateChecksum content = transmitted →
        Neogi2.parseResponse res = Ok reply)
     ∧ (Neogi2.calculateChecksum content ≠ transmitted →
        Neogi2.parseResponse res =
        Throw (ChecksumValidationFailed (Neogi2.calculateChecksum content)
                                        transmitted content)))
  ∧ (∀ r, Neogi.parseResponse res = Ok r → isSimpleAck r = false →
       checksum r
       = Some (Neogi.calculateChecksum (command r ++ data r ++ [HASH])))
  ∧ (∀ r, Neogi2.parseResponse res = Ok r → isSimpleAck r = false →
       checksum r = Some (Neogi2.calculateChecksum (command r ++ data r))).
Proof.
  intros ascii. split; [|split].
  - intros m Hm content transmitted reply.
    rewrite parseResponse_shape, parseResponse2_shape.
    fold ascii. rewrite !(parse_with_data _ _ _ Hm).
    fold content transmitted. unfold scope_with_hash, scope_content.
    repeat split; intros H.
    + by destruct (decide (Neogi.calculateChecksum (content ++ [HASH])
                           = transmitted)).
    + by destruct (decide (Neogi.calculateChecksum (content ++ [HASH])
                           = transmitted)).
    + by destruct (decide (Neogi2.calculateChecksum content = transmitted)).
    + by destruct (decide (Neogi2.calculateChecksum content = transmitted)).
  - intros r Hr Hack. rewrite parseResponse_shape in Hr.
    destruct (parse_with_checked _ _ _ Hr Hack) as (m & _ & Hc & -> & <-).
    unfold scope_with_hash. by rewrite app_assoc, Hc.
  - intros r Hr Hack. rewrite parseResponse2_shape in Hr.
    destruct (parse_with_checked _ _ _ Hr Hack) as (m & _ & Hc & -> & <-).
    unfold scope_content. by rewrite Hc.
Qed.

Lemma parse_with_ack recompute tok post :
  HASH ∉ tok ++ PERCENT :: post →
  tok ≠ [] → Forall (λ c, isUpperOrDigit c = true) tok →
  parse_with recompute (HASH :: tok ++ PERCENT :: post)
  = Ok {| command := take 2 tok; data := drop 2 tok;
          checksum := None; isSimpleAck := true |}.
Proof.
  intros Hh Hne Htok. unfold parse_with.
  replace (includes (HASH :: tok ++ PERCENT :: post) HASH 1) with false.
  2: { symmetry. apply not_true_iff_false. unfold includes. simpl.
       rewrite drop_0. intros (x & Hin & Hx)%existsb_exists.
       apply N.eqb_eq in Hx as <-. by apply Hh, list_elem_of_In. }
  simpl negb. cbv iota.
  rewrite (String_match_head _ _ _ (ack_re_intro tok post Hne Htok)).
  change (group [tok] 1) with tok. unfold substring, substring_from.
  rewrite drop_0. simpl Nat.sub. do 2 f_equal.
  - destruct (2 <=? length tok)%nat eqn:Hl; [done|].
    apply Nat.leb_gt in Hl. rewrite take_ge; [done|lia].
  - destruct (2 <? length tok)%nat eqn:Hl; [done|].
    apply Nat.ltb_ge in Hl. rewrite drop_ge; [done|lia].
Qed.

Lemma parse_with_no_ack recompute ascii :
  includes ascii HASH 1 = false →
  (∀ tok post, ascii = HASH :: tok ++ PERCENT :: post → tok ≠ [] →
               ¬ Forall (λ c, isUpperOrDigit c = true) tok) →
  parse_with recompute ascii = Throw (InvalidResponseFormat ascii).
Proof.
  intros Hinc Hno. unfold parse_with. rewrite Hinc. simpl negb. cbv iota.
  replace (String_match ack_re ascii) with (@None (list jsstring)).
  - destruct (String_match data_re ascii) as [m|] eqn:Hm; [|done].
    apply data_match_includes in Hm. congruence.
  - symmetry. apply String_match_none. intros pre t -> .
    destruct (match_here ack_re t) as [g|] eqn:Ht; [|done]. exfalso.
    apply ack_re_inv in Ht as (tok & post & -> & _ & Hne & Htok).
    destruct pre as [|x pre].
    + by apply (Hno tok post).
    + rewrite (includes_hash_intro _ (x :: pre) (tok ++ PERCENT :: post))
        in Hinc; done.
Qed.

(** C8 (as amended). For a reply in which no ['#'] occurs after position
    0: if it has the form [#<TOKEN>%...] with a non-empty token of capital
    letters and digits, [parseResponse] returns [isSimpleAck = true], the
    first two characters of the token as the command (the whole token when
    it is shorter) and the rest of the token as the data, with no checksum;
    if it does not have that form, [parseResponse] throws the error of an
    invalid response format.  No checksum is validated on either path. *)
Theorem C8_simple_ack (res : jsstring) :
  let ascii := if startsWith res HASH then res else hex2a res in
  includes ascii HASH 1 = false →
  (∀ tok post,
     ascii = HASH :: tok ++ PERCENT :: post → tok ≠ [] →
     Forall (λ c, isUpperOrDigit c = true) tok →
     Neogi.parseResponse res
     = Ok {| command := take 2 tok; data := drop 2 tok;
             checksum := None; isSimpleAck := true |})
  ∧ ((∀ tok post,
        ascii = HASH :: tok ++ PERCENT :: post → tok ≠ [] →
        ¬ Forall (λ c, isUpperOrDigit c = true) tok) →
     Neogi.parseResponse res = Throw (InvalidResponseFormat ascii)).
Proof.
  intros ascii Hinc. rewrite parseResponse_shape. fold ascii. split.
  - intros tok post Heq Hne Htok. rewrite Heq. apply parse_with_ack; try done.
    rewrite Heq in Hinc. by apply includes_hash_inv in Hinc.
  - intros Hno. by apply parse_with_no_ack.
Qed.

End Decoder.

(** A reply that starts with ['#'] is decoded without [hex2a]: the result
    is the same under every implementation of the inherited helpers. *)
Lemma parseResponse_raw {n1 n2 : Type} (B1 : BaseDispenser n1)
    (B2 : BaseDispenser n2) (res : jsstring) :
  startsWith res HASH = true →
  Neogi.parseResponse (BaseDispenser0 := B1) res
  = Neogi.parseResponse (BaseDispenser0 := B2) res.
Proof. intros H. rewrite !parseResponse_shape, H. reflexivity. Qed.

(** C1 at a concrete reply: the totalizer reply of the protocol note is
    accepted by the first variant, and the same reply with another
    checksum is refused. *)
Lemma C1_checksum_gate_witness :
  Neogi.parseResponse (BaseDispenser0 := Model.base)
    (js "#VT0000004142.02#40%")
  = Ok {| command := js "VT"; data := js "0000004142.02";
          checksum := Some (js "40"); isSimpleAck := false |}
  ∧ Neogi.parseResponse (BaseDispenser0 := Model.base)
      (js "#VT0000004142.02#41%")
    = Throw (ChecksumValidationFailed (js "40") (js "41")
                                      (js "VT0000004142.02")).
Proof.
  split.
  - destruct (C1_checksum_gate (BaseDispenser0 := Model.base)
                (js "#VT0000004142.02#40%")) as [H _].
    destruct (H [js "VT0000004142.02"; js "40"]) as (Hok & _);
      [vm_compute; reflexivity|].
    apply Hok. vm_compute. reflexivity.
  - destruct (C1_checksum_gate (BaseDispenser0 := Model.base)
                (js "#VT0000004142.02#41%")) as [H _].
    destruct (H [js "VT0000004142.02"; js "41"]) as (_ & Hbad & _);
      [vm_compute; reflexivity|].
    apply Hbad. vm_compute. discriminate.
Defined.

(** C8 as stated fails: the reply [#abc%] has no ['#'] after position 0,
    yet it is not returned as a simple acknowledgement; [parseResponse]
    throws. *)
Lemma C8_counterexample :
  includes (js "#abc%") HASH 1 = false
  ∧ Neogi.parseResponse (BaseDispenser0 := Model.base) (js "#abc%")
    = Throw (InvalidResponseFormat (js "#abc%")).
Proof. split; vm_compute; reflexivity. Qed.

(** C8 as amended, at the status acknowledgement [#STIDLE%]. *)
Lemma C8_simple_ack_witness :
  Neogi.parseResponse (BaseDispenser0 := Model.base) (js "#STIDLE%")
  = Ok {| command := js "ST"; data := js "IDLE";
          checksum := None; isSimpleAck := true |}.
Proof.
  destruct (C8_simple_ack (BaseDispenser0 := Model.base) (js "#STIDLE%"))
    as [H _]; [vm_compute; reflexivity|].
  apply (H (js "STIDLE") []); [reflexivity | discriminate |].
  repeat constructor.
Defined.

(** ** Encoding a preset and decoding it again *)

Lemma code_sum_app (a b : jsstring) :
  code_sum (a ++ b) = (code_sum a + code_sum b)%N.
Proof.
  induction a as [|c a IH]; simpl; [done|]. unfold code_sum in *. simpl.
  rewrite IH. lia.
Qed.

Lemma decimalChecksum_inj (a b : jsstring) :
  decimalChecksum a = decimalChecksum b →
  (code_sum a mod 100 = code_sum b mod 100)%N.
Proof.
  unfold decimalChecksum, digit.
  generalize (code_sum a) (code_sum b). intros x y [= H1 H2]. lia.
Qed.

(** The closing ['#'] moves the checksum by 35 modulo 100. *)
Lemma decimalChecksum_hash (text : jsstring) :
  decimalChecksum (text ++ [HASH]) ≠ decimalChecksum text.
Proof.
  intros H%decimalChecksum_inj. rewrite code_sum_app in H.
  change (code_sum [HASH]) with 35%N in H. lia.
Qed.

Section RoundTrip.
Context {number : Type} `{!JSNumber number, !BaseDispenser number}.

Lemma frame_matches (text d : jsstring) :
  text ≠ [] → Forall (λ c, dot c = true ∧ c ≠ HASH) text →
  String_match data_re ([HASH] ++ text ++ [HASH] ++ decimalChecksum d
                        ++ [PERCENT])
  = Some [text; decimalChecksum d].
Proof.
  intros Hne Hok. apply String_match_head.
  destruct (decimalChecksum_digits d) as (d1 & d2 & -> & H1 & H2).
  by apply (data_re_frame text d1 d2 []).
Qed.

(** The first variant refuses every frame that its own
    [buildCommandWithChecksum] produces (for a payload without ['#'] and
    without line terminators): the encoder sums the payload, the decoder
    the payload and the closing ['#']. *)
Lemma frame_rejected_first (text : jsstring) :
  text ≠ [] → Forall (λ c, dot c = true ∧ c ≠ HASH) text →
  Neogi.parseResponse (Neogi.buildCommandWithChecksum text)
  = Throw (ChecksumValidationFailed
             (Neogi.calculateChecksum (text ++ [HASH]))
             (Neogi.calculateChecksum text) text).
Proof.
  intros Hne Hok. rewrite parseResponse_shape.
  unfold Neogi.buildCommandWithChecksum.
  change (startsWith ([HASH] ++ _) HASH) with true. cbv iota.
  rewrite calculateChecksum_spec.
  rewrite (parse_with_data _ _ _ (frame_matches text text Hne Hok)).
  change (group [text; decimalChecksum text] 1) with text.
  change (group [text; decimalChecksum text] 2) with (decimalChecksum text).
  unfold scope_with_hash. rewrite calculateChecksum_spec.
  destruct (decide (decimalChecksum (text ++ [HASH]) = decimalChecksum text))
    as [Heq|_]; [|done].
  by apply decimalChecksum_hash in Heq.
Qed.

(** The second variant decodes what it encodes. *)
Lemma frame_roundtrip_second (text : jsstring) :
  text ≠ [] → Forall (λ c, dot c = true ∧ c ≠ HASH) text →
  Neogi2.parseResponse (Neogi2.buildCommandWithChecksum text)
  = Ok {| command := take 2 text; data := drop 2 text;
          checksum := Some (Neogi2.calculateChecksum text);
          isSimpleAck := false |}.
Proof.
  intros Hne Hok. rewrite parseResponse2_shape.
  unfold Neogi2.buildCommandWithChecksum.
  change (startsWith ([HASH] ++ _) HASH) with true. cbv iota.
  rewrite calculateChecksum2_spec.
  rewrite (parse_with_data _ _ _ (frame_matches text text Hne Hok)).
  change (group [text; decimalChecksum text] 1) with text.
  change (group [text; decimalChecksum text] 2) with (decimalChecksum text).
  unfold scope_content. rewrite calculateChecksum2_spec.
  by destruct (decide (decimalChecksum text = decimalChecksum text)).
Qed.

(** The preset command of the first variant never survives its own
    decoder, whatever the volume, the vehicle number and the mode (as long
    as they hold no ['#'] and no line terminator, which the documented
    modes ['*'], ['$'], ['@'] and plain vehicle numbers satisfy). *)
Lemma preset_rejected_first (value : number) vehicleNo mode :
  let volumeStr := padStart (toFixed value 2) 7 ZERO in
  let vehicle :=
    match vehicleNo with
    | Some (c :: v) => take 10 (padEnd (c :: v) 10 SPACE)
    | _ => js "          "
    end in
  let payload := js "SL" ++ volumeStr ++ js "$" ++ default (js "*") mode
                 ++ vehicle in
  Forall (λ c, dot c = true ∧ c ≠ HASH) payload →
  Neogi.parseResponse (Neogi.buildPresetCommand value vehicleNo mode)
  = Throw (ChecksumValidationFailed
             (Neogi.calculateChecksum (payload ++ [HASH]))
             (Neogi.calculateChecksum payload) payload).
Proof.
  intros volumeStr vehicle payload Hok.
  apply frame_rejected_first; [discriminate|exact Hok].
Qed.

(** The preset command of the second variant decodes to the command
    [SL] and to the padded volume followed by the vehicle number. *)
Lemma preset_roundtrip_second (value : number) vehicleNo :
  let paddedValue :=
    padStart (floor_toString (num_mul value (num_of_Z 100))) 8 ZERO in
  let vehicle :=
    match vehicleNo with
    | Some (c :: v) => take 12 (padEnd (c :: v) 12 SPACE)
    | _ => js "            "
    end in
  Forall (λ c, dot c = true ∧ c ≠ HASH) (paddedValue ++ vehicle) →
  Neogi2.parseResponse (Neogi2.buildPresetCommand value vehicleNo)
  = Ok {| command := js "SL"; data := paddedValue ++ vehicle;
          checksum := Some (Neogi2.calculateChecksum
                              (js "SL" ++ paddedValue ++ vehicle));
          isSimpleAck := false |}.
Proof.
  intros paddedValue vehicle Hok.
  unfold Neogi2.buildPresetCommand. fold paddedValue.
  rewrite frame_roundtrip_second; [done | discriminate |].
  repeat (constructor; [by vm_compute|]). exact Hok.
Qed.

End RoundTrip.

(** C3. The round trip fails in the first variant: the frame that
    [buildPresetCommand] builds for 10.50 litres, [#SL0010.50$*<10
    spaces>#97%], is refused by [parseResponse] with the
    checksum-validation error (it recomputes 32 over the payload and the
    closing ['#']). *)
Theorem C3_preset_frame_rejected :
  Neogi.buildPresetCommand (JSNumber0 := Model.decimal) (21 # 2)%Q None None
  = js "#SL0010.50$*          #97%"
  ∧ Neogi.parseResponse (BaseDispenser0 := Model.base)
      (Neogi.buildPresetCommand (JSNumber0 := Model.decimal)
         (21 # 2)%Q None None)
    = Throw (ChecksumValidationFailed (js "32") (js "97")
                                      (js "SL0010.50$*          ")).
Proof. split; vm_compute; reflexivity. Qed.

(** The second variant decodes the same preset. *)
Example preset_roundtrip_second_10_50 :
  Neogi2.parseResponse (BaseDispenser0 := Model.base)
    (Neogi2.buildPresetCommand (JSNumber0 := Model.decimal)
       (21 # 2)%Q None)
  = Ok {| command := js "SL"; data := js "00001050            ";
          checksum := Some (js "33"); isSimpleAck := false |}.
Proof. vm_compute. reflexivity. Qed.

(** ** The response correlator *)

Section Filter.
Context {A : Type} (P : A → Prop) `{!∀ x, Decision (P x)}.

Lemma filter_all (l : list A) : (∀ x, x ∈ l → P x) → filter P l = l.
Proof.
  induction l as [|x l IH]; intros Hall; [done|].
  rewrite filter_cons_True by (apply Hall; left).
  f_equal. apply IH. intros y Hy. apply Hall. by right.
Qed.

Lemma filter_none (l : list A) : (∀ x, x ∈ l → ¬ P x) → filter P l = [].
Proof.
  induction l as [|x l IH]; intros Hall; [done|].
  rewrite filter_cons_False by (apply Hall; left).
  apply IH. intros y Hy. apply Hall. by right.
Qed.

Lemma filter_one_True (x : A) : P x → filter P [x] = [x].
Proof. intros Hx. by rewrite filter_cons_True. Qed.

Lemma filter_one_False (x : A) : ¬ P x → filter P [x] = [].
Proof. intros Hx. by rewrite filter_cons_False. Qed.

Lemma filter_find_head (l : list A) i x :
  list_find P l = Some (i, x) → head (filter P l) = Some x.
Proof.
  revert i. induction l as [|y l IH]; intros i; simpl; [done|].
  rewrite filter_cons. destruct (decide (P y)) as [Hy|Hy].
  - by intros [= _ ->].
  - destruct (list_find P l) as [[j z]|]; [|done]. simpl.
    intros [= _ ->]. by apply (IH j).
Qed.

Lemma filter_find_none (l : list A) :
  filter P l = [] → list_find P l = None.
Proof.
  intros Hnil. apply list_find_None, Forall_forall. intros x Hx HP.
  by apply (filter_nil_not_elem_of P l x).
Qed.
End Filter.

Lemma filter_eq_id (id : nat) (l : list nat) :
  NoDup l → id ∈ l → filter (λ i, i = id) l = [id].
Proof.
  induction 1 as [|x l Hx Hnd IH]; intros Hin; [by apply elem_of_nil in Hin|].
  apply elem_of_cons in Hin as [<-|Hin].
  - rewrite filter_cons_True by done. f_equal.
    apply filter_none. intros y Hy ->. done.
  - rewrite filter_cons_False; [by apply IH|]. intros ->. done.
Qed.

Lemma filter_fst_map {B} (id : nat) (b : B) (l : list nat) :
  filter (λ p, p.1 = id) ((λ i, (i, b)) <$> l)
  = (λ i, (i, b)) <$> filter (λ i, i = id) l.
Proof.
  induction l as [|x l IH]; [done|]. rewrite fmap_cons, !filter_cons.
  cbn [fst]. destruct (decide (x = id)); [rewrite fmap_cons|]; by rewrite IH.
Qed.

Lemma filter_fst_fmap {B} (j : nat) (l : list (nat * B)) :
  (filter (λ p, p.1 ≠ j) l).*1 = filter (λ i, i ≠ j) (l.*1).
Proof.
  induction l as [|[x b] l IH]; [done|]. rewrite fmap_cons, !filter_cons.
  cbn [fst]. destruct (decide (x ≠ j)); [rewrite fmap_cons|]; by rewrite IH.
Qed.

Lemma fst_map_pair {B} (b : B) (l : list nat) : ((λ i, (i, b)) <$> l).*1 = l.
Proof.
  induction l as [|x l IH]; [done|]. rewrite !fmap_cons. cbn [fst].
  by rewrite IH.
Qed.

Section Correlator.
Import Neogi.

Lemma emit_data_fold (bytes : list N) (ids : list nat) (rt : runtime) :
  foldl (λ rt id, handler id bytes (removeListener id rt)) rt ids
  = {| next_id := next_id rt;
       listeners := filter (λ l, l ∉ ids) (listeners rt);
       timers := filter (λ t, t.1 ∉ ids) (timers rt);
       settled := settled rt
                  ++ ((λ id, (id, Resolved (Buffer_toString_hex bytes)))
                        <$> ids) |}.
Proof.
  revert rt. induction ids as [|id ids IH]; intros rt.
  - simpl. destruct rt as [n L T S]. simpl. f_equal.
    + symmetry. apply filter_all. intros x _. apply not_elem_of_nil.
    + symmetry. apply filter_all. intros x _. apply not_elem_of_nil.
    + by rewrite app_nil_r.
  - simpl foldl. rewrite IH. destruct rt as [n L T S].
    unfold handler, resolve, settle, clearTimeout, removeListener. simpl.
    f_equal.
    + rewrite list_filter_filter. apply list_filter_iff.
      intros x. rewrite not_elem_of_cons. tauto.
    + rewrite list_filter_filter. apply list_filter_iff.
      intros x. rewrite not_elem_of_cons. tauto.
    + by rewrite <- app_assoc.
Qed.

Lemma emit_data_eq (bytes : list N) (rt : runtime) :
  runtime_inv rt →
  emit_data bytes rt
  = {| next_id := next_id rt; listeners := []; timers := [];
       settled := settled rt
                  ++ ((λ id, (id, Resolved (Buffer_toString_hex bytes)))
                        <$> listeners rt) |}.
Proof.
  intros [Ht _ _]. unfold emit_data. rewrite emit_data_fold. f_equal.
  - apply filter_none. intros x Hx Hn. done.
  - apply filter_none. intros [x ms] Hx Hn. apply Hn. rewrite <- Ht.
    apply list_elem_of_fmap. by exists (x, ms).
Qed.

Lemma expire_found (j : nat) (rt : runtime) i j' ms :
  list_find (λ t, t.1 = j) (timers rt) = Some (i, (j', ms)) →
  expire j rt
  = {| next_id := next_id rt;
       listeners := filter (λ l, l ≠ j) (listeners rt);
       timers := filter (λ t, t.1 ≠ j) (timers rt);
       settled := settled rt ++ [(j, Rejected (timeout_message ms))] |}.
Proof. intros H. unfold expire. by rewrite H. Qed.

Lemma expire_cleared (j : nat) (rt : runtime) :
  list_find (λ t, t.1 = j) (timers rt) = None → expire j rt = rt.
Proof. intros H. unfold expire. by rewrite H. Qed.

Lemma runtime_inv_init : runtime_inv runtime_init.
Proof.
  split; simpl; [done | constructor |]. intros id Hid.
  by apply elem_of_nil in Hid.
Qed.

Lemma runtime_inv_step (rt : runtime) (ev : event) :
  runtime_inv rt → runtime_inv (step rt ev).
Proof.
  intros Hinv. pose proof Hinv as [Ht Hnd Hfr].
  destruct ev as [timeoutMs|bytes|j]; simpl step.
  - (* Call *)
    split; simpl.
    + by rewrite fmap_app, Ht.
    + rewrite <- app_assoc. apply NoDup_app in Hnd as (HL & Hd & HS).
      apply NoDup_app. split; [done|]. split.
      * intros x Hx [->%list_elem_of_singleton|Hx']%elem_of_app.
        -- specialize (Hfr (next_id rt)). rewrite elem_of_app in Hfr.
           specialize (Hfr (or_introl Hx)). lia.
        -- by apply (Hd x).
      * apply NoDup_cons. split; [|done]. intros Hn.
        specialize (Hfr (next_id rt)). rewrite elem_of_app in Hfr.
        specialize (Hfr (or_intror Hn)). lia.
    + intros id. rewrite !elem_of_app, list_elem_of_singleton.
      intros [[H| ->]|H]; [| lia |].
      * specialize (Hfr id). rewrite elem_of_app in Hfr.
        specialize (Hfr (or_introl H)). lia.
      * specialize (Hfr id). rewrite elem_of_app in Hfr.
        specialize (Hfr (or_intror H)). lia.
  - (* Data *)
    rewrite (emit_data_eq _ _ Hinv). split; simpl.
    + done.
    + rewrite fmap_app, fst_map_pair.
      apply NoDup_app in Hnd as (HL & Hd & HS).
      apply NoDup_app. split; [done|]. split; [|done].
      intros x Hx Hx'. by apply (Hd x).
    + intros id. rewrite fmap_app, fst_map_pair. intros Hid. apply Hfr.
      rewrite elem_of_app in *. tauto.
  - (* Expire *)
    destruct (list_find (λ t, t.1 = j) (timers rt)) as [[i [j' ms]]|] eqn:Hf.
    2: { by rewrite (expire_cleared _ _ Hf). }
    rewrite (expire_found _ _ _ _ _ Hf).
    assert (Hj : j ∈ listeners rt).
    { apply list_find_Some in Hf as (Hi & Hj & _). simpl in Hj. subst j'.
      rewrite <- Ht. apply list_elem_of_fmap. exists (j, ms).
      split; [done|]. by eapply list_elem_of_lookup_2. }
    split; simpl.
    + rewrite <- Ht. apply filter_fst_fmap.
    + rewrite fmap_app. simpl. apply NoDup_app in Hnd as (HL & Hd & HS).
      apply NoDup_app. split; [by apply NoDup_filter|]. split.
      * intros x [Hx Hin]%list_elem_of_filter
                 [Hx'|Hx'%list_elem_of_singleton]%elem_of_app; [|done].
        by apply (Hd x).
      * apply NoDup_app. split; [done|]. split; [|apply NoDup_singleton].
        intros x Hx ->%list_elem_of_singleton. by apply (Hd j).
    + intros id. rewrite fmap_app. simpl.
      rewrite !elem_of_app, list_elem_of_filter, list_elem_of_singleton.
      intros Hid. apply Hfr. rewrite elem_of_app.
      destruct Hid as [[_ H]|[H| ->]]; tauto.
Qed.

Lemma runtime_inv_run (evs : list event) (rt : runtime) :
  runtime_inv rt → runtime_inv (run evs rt).
Proof.
  revert rt. induction evs as [|ev evs IH]; intros rt H; [done|].
  apply IH. by apply runtime_inv_step.
Qed.
End Correlator.

Section Settlement.
Import Neogi.

Lemma pending_call (timeoutMs : option N) (rt : runtime) :
  runtime_inv rt →
  pending (next_id rt) (default 20000%N timeoutMs)
          (dispenserResponse timeoutMs rt).2.
Proof.
  intros [Ht Hnd Hfr]. unfold pending, dispenserResponse. simpl.
  assert (Hfresh : next_id rt ∉ listeners rt ++ (settled rt).*1).
  { intros Hin. specialize (Hfr _ Hin). lia. }
  rewrite elem_of_app in Hfresh.
  split; [apply elem_of_app; right; by left|]. split.
  - rewrite filter_app, filter_one_True by done.
    rewrite filter_none; [done|]. intros [x ms] Hx Heq. simpl in Heq.
    subst x. apply Hfresh. left. rewrite <- Ht.
    apply list_elem_of_fmap. by exists (next_id rt, ms).
  - apply filter_none. intros [x o] Hx Heq. simpl in Heq. subst x.
    apply Hfresh. right. apply list_elem_of_fmap. by exists (next_id rt, o).
Qed.

Lemma pending_lt (id : nat) (ms : N) (rt : runtime) :
  runtime_inv rt → pending id ms rt → id < next_id rt.
Proof.
  intros [_ _ Hfr] (Hin & _). apply Hfr, elem_of_app. by left.
Qed.

Lemma done_lt (id : nat) (o : settlement) (rt : runtime) :
  runtime_inv rt → done_with id o rt → id < next_id rt.
Proof.
  intros [_ _ Hfr] (_ & _ & Hs). apply Hfr, elem_of_app. right.
  apply list_elem_of_fmap. exists (id, o). split; [done|].
  assert (Hin : (id, o) ∈ filter (λ p, p.1 = id) (settled rt))
    by (rewrite Hs; left).
  by apply list_elem_of_filter in Hin as [_ ?].
Qed.

Lemma pending_step (id : nat) (ms : N) (rt : runtime) (ev : event) :
  runtime_inv rt → pending id ms rt → settles id ev = false →
  pending id ms (step rt ev).
Proof.
  intros Hinv Hp Hev. pose proof (pending_lt _ _ _ Hinv Hp) as Hlt.
  destruct Hp as (Hin & Htm & Hst).
  destruct ev as [timeoutMs|bytes|j]; simpl in Hev; [|done|].
  - unfold pending. simpl. split; [apply elem_of_app; by left|]. split.
    + rewrite filter_app, Htm, filter_one_False; [done|]. simpl. lia.
    + done.
  - apply bool_decide_eq_false in Hev. simpl step.
    destruct (list_find (λ t, t.1 = j) (timers rt)) as [[i [j' ms']]|] eqn:Hf.
    2: { by rewrite (expire_cleared _ _ Hf). }
    rewrite (expire_found _ _ _ _ _ Hf). unfold pending. simpl. split; [|split].
    + apply list_elem_of_filter. split; [congruence|done].
    + rewrite list_filter_filter. rewrite <- Htm. apply list_filter_iff.
      intros [x y]. simpl. split; [tauto|]. intros ->. split; [done|congruence].
    + rewrite filter_app, Hst, filter_one_False; [done|]. simpl. congruence.
Qed.

Lemma pending_data (id : nat) (ms : N) (rt : runtime) (bytes : list N) :
  runtime_inv rt → pending id ms rt →
  done_with id (Resolved (Buffer_toString_hex bytes)) (step rt (Data bytes)).
Proof.
  intros Hinv (Hin & Htm & Hst). simpl step. rewrite (emit_data_eq _ _ Hinv).
  destruct Hinv as [_ Hnd _]. apply NoDup_app in Hnd as (HL & _ & _).
  unfold done_with. simpl. split; [apply not_elem_of_nil|]. split; [done|].
  by rewrite filter_app, Hst, filter_fst_map, filter_eq_id.
Qed.

Lemma pending_expire (id : nat) (ms : N) (rt : runtime) :
  runtime_inv rt → pending id ms rt →
  done_with id (Rejected (timeout_message ms)) (step rt (Expire id)).
Proof.
  intros Hinv (Hin & Htm & Hst). simpl step.
  destruct (list_find (λ t, t.1 = id) (timers rt)) as [[i [j' ms']]|] eqn:Hf.
  - pose proof (filter_find_head _ _ _ _ Hf) as Hh. rewrite Htm in Hh.
    injection Hh as <- <-. rewrite (expire_found _ _ _ _ _ Hf).
    unfold done_with. simpl. split; [|split].
    + intros [Hne _]%list_elem_of_filter. done.
    + apply filter_none. intros x [Hne _]%list_elem_of_filter. done.
    + by rewrite filter_app, Hst, filter_one_True.
  - apply list_find_None in Hf. rewrite filter_none in Htm; [done|].
    intros x Hx. by apply (proj1 (Forall_forall _ _) Hf).
Qed.

Lemma done_step (id : nat) (o : settlement) (rt : runtime) (ev : event) :
  runtime_inv rt → done_with id o rt → done_with id o (step rt ev).
Proof.
  intros Hinv Hd. pose proof (done_lt _ _ _ Hinv Hd) as Hlt.
  destruct Hd as (Hin & Htm & Hst).
  destruct ev as [timeoutMs|bytes|j]; simpl step.
  - unfold done_with. simpl. split; [|split].
    + rewrite elem_of_app, list_elem_of_singleton. intros [?| ->]; [done|lia].
    + rewrite filter_app, Htm, filter_one_False; [done|]. simpl. lia.
    + done.
  - rewrite (emit_data_eq _ _ Hinv). unfold done_with. simpl.
    split; [apply not_elem_of_nil|]. split; [done|].
    rewrite filter_app, Hst, filter_fst_map.
    rewrite (filter_none (λ i, i = id)); [done|]. by intros x Hx ->.
  - destruct (list_find (λ t, t.1 = j) (timers rt)) as [[i [j' ms']]|] eqn:Hf.
    2: { by rewrite (expire_cleared _ _ Hf). }
    rewrite (expire_found _ _ _ _ _ Hf).
    assert (Hne : j ≠ id).
    { apply list_find_Some in Hf as (Hi & Hj & _). simpl in Hj. subst j'.
      intros ->. eapply (filter_nil_not_elem_of _ _ (id, ms') Htm); [done|].
      by eapply list_elem_of_lookup_2. }
    unfold done_with. simpl. split; [|split].
    + by intros [_ ?]%list_elem_of_filter.
    + rewrite list_filter_filter. apply filter_none.
      intros x Hx [Hid _]. by apply (filter_nil_not_elem_of _ _ x Htm).
    + rewrite filter_app, Hst, filter_one_False; [done|]. simpl. congruence.
Qed.

Lemma done_run (id : nat) (o : settlement) (evs : list event) (rt : runtime) :
  runtime_inv rt → done_with id o rt → done_with id o (run evs rt).
Proof.
  revert rt. induction evs as [|ev evs IH]; intros rt Hinv Hd; [done|].
  apply IH; [by apply runtime_inv_step | by apply done_step].
Qed.

(** The fate of a pending call is decided by the first event that
    settles it. *)
Lemma pending_run (id : nat) (ms : N) (evs : list event) (rt : runtime) :
  runtime_inv rt → pending id ms rt →
  match list_find (λ ev, settles id ev = true) evs with
  | None => pending id ms (run evs rt)
  | Some (_, Data bytes) =>
    done_with id (Resolved (Buffer_toString_hex bytes)) (run evs rt)
  | Some (_, Expire _) =>
    done_with id (Rejected (timeout_message ms)) (run evs rt)
  | Some (_, Call _) => False
  end.
Proof.
  revert rt. induction evs as [|ev evs IH]; intros rt Hinv Hp; [done|].
  change (run (ev :: evs) rt) with (run evs (step rt ev)).
  cbn [list_find]. destruct (decide (settles id ev = true)) as [Hs|Hs].
  - destruct ev as [t|bytes|j]; [done| |].
    + apply done_run; [by apply runtime_inv_step | by apply (pending_data id ms)].
    + simpl in Hs. apply bool_decide_eq_true in Hs as ->.
      apply done_run; [by apply runtime_inv_step | by apply pending_expire].
  - apply not_true_is_false in Hs.
    specialize (IH (step rt ev) (runtime_inv_step _ _ Hinv)
                   (pending_step _ _ _ _ Hinv Hp Hs)).
    by destruct (list_find (λ ev, settles id ev = true) evs) as [[i e]|].
Qed.

Lemma attached_not_settled (rt : runtime) (l : nat) :
  runtime_inv rt → l ∈ listeners rt → settle_count l rt = 0.
Proof.
  intros [_ Hnd _] Hl. apply NoDup_app in Hnd as (_ & Hd & _).
  unfold settle_count. rewrite filter_none; [done|].
  intros [x o] Hx Heq. simpl in Heq. subst x. apply (Hd l Hl).
  apply list_elem_of_fmap. by exists (l, o).
Qed.

(** C2. Take any history of the event loop, a call of
    [dispenserResponse(timeoutMs)] after it, and any continuation.  While
    no data has arrived and its timer has not expired, the call is pending:
    listener attached, timer armed with [timeoutMs] (20000 by default),
    promise unsettled.  If data arrives first, the promise is resolved with
    the bytes in hexadecimal; if its timer expires first, the promise is
    rejected with the message that names the timeout.  In both cases
    [resolve] or [reject] is called exactly once for the call, its listener
    is no longer attached and its timer is no longer armed, whatever
    happens afterwards.  At every moment the attached listeners belong to
    calls that are not settled yet, so none is left behind. *)
Theorem C2_dispenserResponse_settles_once
    (pre post : list event) (timeoutMs : option N) :
  let rt0 := run pre runtime_init in
  let id := (dispenserResponse timeoutMs rt0).1 in
  let ms := default 20000%N timeoutMs in
  let rt := run post (dispenserResponse timeoutMs rt0).2 in
  match list_find (λ ev, settles id ev = true) post with
  | None =>
    id ∈ listeners rt ∧ (id, ms) ∈ timers rt
    ∧ settle_count id rt = 0 ∧ promise_state id rt = None
  | Some (_, Data bytes) =>
    (id ∉ listeners rt) ∧ (id ∉ (timers rt).*1)
    ∧ settle_count id rt = 1
    ∧ promise_state id rt = Some (Resolved (Buffer_toString_hex bytes))
  | Some (_, Expire _) =>
    (id ∉ listeners rt) ∧ (id ∉ (timers rt).*1)
    ∧ settle_count id rt = 1
    ∧ promise_state id rt
      = Some (Rejected (js "Dispenser response timed out after "
                        ++ toString10 ms ++ js "ms"))
  | Some (_, Call _) => False
  end
  ∧ (∀ l, l ∈ listeners rt → settle_count l rt = 0).
Proof.
  intros rt0 id ms rt.
  assert (Hinv0 : runtime_inv rt0) by apply runtime_inv_run, runtime_inv_init.
  assert (Hinv1 : runtime_inv (dispenserResponse timeoutMs rt0).2)
    by apply (runtime_inv_step rt0 (Call timeoutMs) Hinv0).
  assert (Hinv : runtime_inv rt) by by apply runtime_inv_run.
  split; [|intros l; by apply attached_not_settled].
  pose proof (pending_run id ms post _ Hinv1 (pending_call timeoutMs rt0 Hinv0))
    as Hrun.
  fold rt in Hrun.
  assert (Hdone : ∀ o, done_with id o rt →
            (id ∉ listeners rt) ∧ (id ∉ (timers rt).*1)
            ∧ settle_count id rt = 1 ∧ promise_state id rt = Some o).
  { intros o (Hl & Ht & Hs). unfold settle_count, promise_state.
    rewrite Hs. repeat split; [done|].
    intros ([x y] & Hx & Hin)%list_elem_of_fmap. simpl in Hx. subst x.
    by apply (filter_nil_not_elem_of _ _ (id, y) Ht). }
  destruct (list_find (λ ev, settles id ev = true) post) as [[i [t|bytes|j]]|].
  - done.
  - by apply Hdone.
  - by apply Hdone.
  - destruct Hrun as (Hl & Ht & Hs). unfold settle_count, promise_state.
    rewrite Hs. repeat split; [done|].
    assert (Hin : (id, ms) ∈ filter (λ t, t.1 = id) (timers rt))
      by (rewrite Ht; left).
    by apply list_elem_of_filter in Hin as [_ ?].
Qed.

(** One call that times out and one that is answered. *)
Example dispenserResponse_trace :
  run [Call None; Expire 0; Data [1; 255]%N; Call (Some 5%N);
       Data [126; 1]%N; Expire 1] runtime_init
  = {| next_id := 2; listeners := []; timers := [];
       settled := [(0, Rejected (js "Dispenser response timed out after 20000ms"));
                   (1, Resolved (js "7e01"))] |}.
Proof. vm_compute. reflexivity. Qed.

End Settlement.

(** ** Order progress *)

Section Progress.
Context {number : Type} `{!JSNumber number, !BaseDispenser number}.

(** C5. For a decoded reading [r] and a target [q]: the Neogi variant
    reports the status [r >= q], the TCS3000 variant the status
    [r > q - 1]; both report the percentage [toFixedNumber(r / q * 100, 2)]
    and the dispensed quantity [toFixedNumber(r, 2)].  The Neogi reading is
    the running volume parsed from the reply (a reply that does not parse
    makes [isOrderComplete] throw the same error); the TCS3000 reading is
    [processReadSale] of the reply. *)
Theorem C5_isOrderComplete_tie_break (res : jsstring) (q : number) :
  Neogi.isOrderComplete res q
  = match Neogi.processRunningVolume res with
    | Ok v =>
      let r := Neogi.volume v in
      Ok {| Neogi.status := num_ge r q;
            Neogi.percentage :=
              toFixedNumber (num_mul (num_div r q) (num_of_Z 100)) 2;
            Neogi.dispensedQty := toFixedNumber r 2 |}
    | Throw e => Throw e
    end
  ∧ let r := TCS3000.processReadSale res in
    TCS3000.isOrderComplete res q
    = {| TCS3000.complete := num_gt r (num_sub q (num_of_Z 1));
         TCS3000.percentage :=
           toFixedNumber (num_mul (num_div r q) (num_of_Z 100)) 2;
         TCS3000.dispensedQty := toFixedNumber r 2 |}.
Proof.
  split.
  - unfold Neogi.isOrderComplete.
    by destruct (Neogi.processRunningVolume res).
  - intros r. unfold TCS3000.isOrderComplete. fold r.
    by destruct (num_gt r (num_sub q (num_of_Z 1))).
Qed.

End Progress.

(** ** The frames of the TCS3000 *)

Lemma crc_array_range : Forall (λ x, 0 ≤ x < 256)%Z TCS3000.crc_array.
Proof.
  apply Forall_forall. intros x Hx%list_elem_of_In.
  assert (Hb : forallb (λ x, (0 <=? x)%Z && (x <? 256)%Z) TCS3000.crc_array
               = true) by (vm_compute; reflexivity).
  rewrite forallb_forall in Hb. specialize (Hb x Hx).
  apply andb_true_iff in Hb as [?%Z.leb_le ?%Z.ltb_lt]. lia.
Qed.

Lemma lxor_byte (a b : Z) :
  (0 ≤ a < 256 → 0 ≤ b < 256 → 0 ≤ Z.lxor a b < 256)%Z.
Proof.
  intros Ha Hb. assert (H0 : (0 ≤ Z.lxor a b)%Z) by (apply Z.lxor_nonneg; lia).
  split; [done|].
  destruct (Z.eq_dec (Z.lxor a b) 0%Z) as [->|Hne]; [lia|].
  change 256%Z with (2 ^ 8)%Z. apply Z.log2_lt_pow2; [lia|].
  pose proof (Z.log2_lxor a b) as Hl.
  assert (Z.log2 a < 8)%Z.
  { destruct (Z.eq_dec a 0%Z) as [->|]; [done|]. apply Z.log2_lt_pow2; lia. }
  assert (Z.log2 b < 8)%Z.
  { destruct (Z.eq_dec b 0%Z) as [->|]; [done|]. apply Z.log2_lt_pow2; lia. }
  lia.
Qed.

(** One step of the accumulator on bytes: the table is defined there and
    gives a byte. *)
Lemma crc_at_byte (crc byte : Z) :
  (0 ≤ crc < 256)%Z → (0 ≤ byte < 256)%Z →
  let next := nth (Z.to_nat (Z.lxor crc byte)) TCS3000.crc_array 0%Z in
  TCS3000.crc_at (TCS3000.xor (Some crc) byte) = Some next
  ∧ (0 ≤ next < 256)%Z.
Proof.
  intros Hc Hb next. pose proof (lxor_byte _ _ Hc Hb) as Hx.
  unfold TCS3000.crc_at, TCS3000.xor. simpl default.
  destruct (Z.leb_spec 0 (Z.lxor crc byte)) as [_|]; [|lia].
  assert (Hlt : Z.to_nat (Z.lxor crc byte) < length TCS3000.crc_array).
  { change (length TCS3000.crc_array) with 256. lia. }
  apply lookup_lt_is_Some in Hlt as [c Hlook].
  assert (next = c) as ->.
  { unfold next. by rewrite nth_lookup, Hlook. }
  split; [done|].
  by apply (proj1 (Forall_lookup _ _) crc_array_range _ _ Hlook).
Qed.

Lemma crc_loop {I} (h : I → Z) (idxs : list I) (crc : Z) (buf : list Z) :
  (0 ≤ crc < 256)%Z → Forall (λ b, 0 ≤ b < 256)%Z (h <$> idxs) →
  let final :=
    foldl (λ crc byte, nth (Z.to_nat (Z.lxor crc byte)) TCS3000.crc_array 0%Z)
          crc (h <$> idxs) in
  foldl (λ '(crc, buffer_array) i,
           let byte := h i in
           (TCS3000.crc_at (TCS3000.xor crc byte), buffer_array ++ [byte]))
        (Some crc, buf) idxs
  = (Some final, buf ++ (h <$> idxs))
  ∧ (0 ≤ final < 256)%Z.
Proof.
  revert crc buf. induction idxs as [|i idxs IH]; intros crc buf Hc Hb.
  - simpl. by rewrite app_nil_r.
  - rewrite fmap_cons in Hb. apply Forall_cons in Hb as [Hi Hb].
    destruct (crc_at_byte crc (h i) Hc Hi) as [Hstep Hr].
    rewrite fmap_cons. cbn [foldl]. cbv zeta in Hstep |- *. rewrite Hstep.
    destruct (IH _ (buf ++ [h i]) Hr Hb) as [Hloop Hfin].
    cbv zeta in Hloop, Hfin. rewrite Hloop. split; [|done].
    by rewrite <- app_assoc.
Qed.

Lemma Buffer_from_bytes (l : list Z) :
  Forall (λ b, 0 ≤ b < 256)%Z l → TCS3000.Buffer_from l = l.
Proof.
  induction 1 as [|x l Hx Hl IH]; [done|]. unfold TCS3000.Buffer_from in *.
  simpl. rewrite IH. f_equal. apply Z.mod_small. lia.
Qed.

Lemma crc8_app (a b : list Z) :
  crc8 (a ++ b)
  = foldl (λ crc byte, nth (Z.to_nat (Z.lxor crc byte)) TCS3000.crc_array 0%Z)
          (crc8 a) b.
Proof. unfold crc8. by rewrite foldl_app. Qed.

Section Frames.
Context {number : Type} `{!JSNumber number, !BaseDispenser number}.

Lemma precursor_loop :
  foldl (λ '(crc, buffer_array) byte,
           (TCS3000.crc_at (TCS3000.xor crc byte), buffer_array ++ [byte]))
        (Some 0%Z, []) TCS3000.volumePrecursor
  = (Some (crc8 TCS3000.volumePrecursor), TCS3000.volumePrecursor).
Proof. vm_compute. reflexivity. Qed.

(** C9. For every quantity whose hexadecimal representation is read as
    bytes (values from 0 to 255), [sendPreset] writes one frame: the nine
    bytes of the precursor, then the bytes of the quantity, then one byte
    of CRC-8, which is the table-driven accumulator started at 0 and run
    over the precursor bytes and then over the quantity bytes. *)
Theorem C9_sendPreset_frame (quantity : number)
    (conn : TCS3000.connection) :
  let hexQuantity := doubleToHex quantity in
  let qbytes :=
    hexStringToByte hexQuantity <$> TCS3000.steps_of_two (length hexQuantity) in
  let precursor := [0x7e; 0x01; 0x00; 0x20; 0x38; 0x0b; 0x03; 0x03; 0xf7]%Z in
  Forall (λ b, 0 ≤ b < 256)%Z qbytes →
  TCS3000.sendPreset quantity conn
  = Ok {| TCS3000.written :=
            TCS3000.written conn
            ++ [precursor ++ qbytes ++ [crc8 (precursor ++ qbytes)]] |}
  ∧ (0 ≤ crc8 (precursor ++ qbytes) < 256)%Z
  ∧ length (precursor ++ qbytes ++ [crc8 (precursor ++ qbytes)])
    = 9 + length qbytes + 1.
Proof.
  intros hexQuantity qbytes precursor Hq.
  assert (Hp : Forall (λ b, 0 ≤ b < 256)%Z precursor)
    by (repeat constructor; lia).
  assert (Hc0 : (0 ≤ crc8 precursor < 256)%Z) by (vm_compute; split; [discriminate|reflexivity]).
  destruct (crc_loop (hexStringToByte hexQuantity)
              (TCS3000.steps_of_two (length hexQuantity))
              (crc8 precursor) precursor Hc0 Hq) as [Hloop Hfin].
  cbv zeta in Hloop, Hfin. fold qbytes in Hloop, Hfin.
  rewrite <- crc8_app in Hloop, Hfin.
  unfold TCS3000.sendPreset. rewrite precursor_loop.
  fold hexQuantity. change TCS3000.volumePrecursor with precursor.
  rewrite Hloop. split; [|split; [done|]].
  - rewrite Buffer_from_bytes; [by rewrite <- app_assoc|].
    apply Forall_app. split; [by apply Forall_app|].
    constructor; [exact Hfin | constructor].
  - rewrite !length_app. simpl. lia.
Qed.

(** C10. [readPreset], [readStatus] and [pumpStart] write the same seven
    bytes to the connection, so the three commands cannot be told apart
    on the wire. *)
Theorem C10_same_wire_frame (conn : TCS3000.connection) :
  let frame := [0x7e; 0x01; 0x00; 0x40; 0x1f; 0x00; 0x83]%Z in
  TCS3000.readPreset conn
  = {| TCS3000.written := TCS3000.written conn ++ [frame] |}
  ∧ TCS3000.readStatus conn = TCS3000.readPreset conn
  ∧ TCS3000.pumpStart conn = TCS3000.readPreset conn.
Proof. done. Qed.

End Frames.

(** C9 at 10.50 litres, with the binary64 word of the quantity. *)
Lemma C9_sendPreset_frame_witness :
  TCS3000.sendPreset (BaseDispenser0 := Model.base) (21 # 2)%Q
    {| TCS3000.written := [] |}
  = Ok {| TCS3000.written :=
            [[0x7e; 0x01; 0x00; 0x20; 0x38; 0x0b; 0x03; 0x03; 0xf7;
              0x40; 0x25; 0x00; 0x00; 0x00; 0x00; 0x00; 0x00; 0x2a]%Z] |}.
Proof.
  destruct (C9_sendPreset_frame (BaseDispenser0 := Model.base) (21 # 2)%Q
              {| TCS3000.written := [] |}) as [H _].
  - vm_compute.
    repeat (constructor; [split; [discriminate|reflexivity]|]). constructor.
  - etransitivity; [exact H|]. vm_compute. reflexivity.
Defined.

(** The two tie-breaks on the same reading, 9.50 of a target of 10: not
    complete for the Neogi, complete for the TCS3000. *)
Example isOrderComplete_tie_break_9_50 :
  Neogi.isOrderComplete (JSNumber0 := Model.decimal)
    (BaseDispenser0 := Model.base) (js "#RV0009.50#51%") 10%Q
  = Ok {| Neogi.status := false; Neogi.percentage := 95.00%Q;
          Neogi.dispensedQty := 9.50%Q |}
  ∧ TCS3000.isOrderComplete (JSNumber0 := Model.decimal)
      (BaseDispenser0 := Model.base)
      (js "7e0100402b080000402300000000000055") 10%Q
    = {| TCS3000.complete := true; TCS3000.percentage := 95.00%Q;
         TCS3000.dispensedQty := 9.50%Q |}.
Proof. split; vm_compute; reflexivity. Qed.

(** ** Status classification *)

Lemma statusMap_keys :
  NoDup [js "00"; js "01"; js "02"; js "03"; js "04"; js "05"; js "06";
         js "07"].
Proof. compute_done. Qed.

Lemma statusMap_known (tok state : jsstring) :
  (tok, state) ∈ [(js "00", js "ERROR"); (js "01", js "IDLE");
                  (js "02", js "ACTIVE"); (js "03", js "AIR (Air detected)");
                  (js "04", js "PAUSED"); (js "05", js "STOPPED");
                  (js "06", js "TCKT_PENDING"); (js "07", js "PRINTING")] →
  TCS3000.statusMap !! tok = Some state.
Proof.
  intros Hin. unfold TCS3000.statusMap.
  apply elem_of_list_to_map_1; [exact statusMap_keys | exact Hin].
Qed.

Lemma statusMap_unknown (tok : jsstring) :
  tok ∉ [js "00"; js "01"; js "02"; js "03"; js "04"; js "05"; js "06";
         js "07"] →
  TCS3000.statusMap !! tok = None.
Proof.
  intros Hin. unfold TCS3000.statusMap.
  by apply not_elem_of_list_to_map_1.
Qed.

Lemma statusMap_truthy (tok : jsstring) :
  TCS3000.truthy (TCS3000.statusMap !! tok) = true
  ↔ tok ∈ [js "00"; js "01"; js "02"; js "03"; js "04"; js "05"; js "06";
           js "07"].
Proof.
  split.
  - destruct (TCS3000.statusMap !! tok) as [v|] eqn:Hv; [|discriminate].
    intros _. apply elem_of_list_to_map_2 in Hv.
    apply (list_elem_of_fmap_2 fst) in Hv. exact Hv.
  - intros Hin. rewrite !elem_of_cons, elem_of_nil in Hin.
    repeat destruct Hin as [->|Hin]; [..|done];
      (erewrite statusMap_known
         by (repeat first [apply list_elem_of_here
                          | apply list_elem_of_further]);
       reflexivity).
Qed.

Section Status.
Context {number : Type} `{!JSNumber number, !BaseDispenser number}.

(** C6 (as amended). [TCS3000.processStatus] is total and never throws:
    each of the eight codes of its table gives the documented state, and
    any other token gives the status [undefined]; there is no [UNKNOWN]
    state.  [Neogi.processStatus] (both variants) has no table: for a
    reply that [parseResponse] accepts it returns the trimmed data of the
    reply as the state, whatever it is, and for any other reply it throws
    the error of [parseResponse]. *)
Theorem C6_status_classification (res : jsstring) :
  (∀ tok state,
     (tok, state) ∈ [(js "00", js "ERROR"); (js "01", js "IDLE");
                     (js "02", js "ACTIVE");
                     (js "03", js "AIR (Air detected)");
                     (js "04", js "PAUSED"); (js "05", js "STOPPED");
                     (js "06", js "TCKT_PENDING"); (js "07", js "PRINTING")] →
     slice_neg res 16 2 = tok →
     TCS3000.processStatus res = {| TCS3000.status := Some state |})
  ∧ (slice_neg res 16 2 ∉ [js "00"; js "01"; js "02"; js "03"; js "04";
                           js "05"; js "06"; js "07"] →
     TCS3000.processStatus res = {| TCS3000.status := None |})
  ∧ Neogi.processStatus res
    = match Neogi.parseResponse res with
      | Ok parsed => Ok {| Neogi.state := trim (data parsed) |}
      | Throw e => Throw e
      end
  ∧ Neogi2.processStatus res
    = match Neogi2.parseResponse res with
      | Ok parsed => Ok {| Neogi2.state := trim (data parsed) |}
      | Throw e => Throw e
      end.
Proof.
  split; [|split; [|split]].
  - intros tok state Hin Htok. unfold TCS3000.processStatus.
    by rewrite Htok, (statusMap_known _ _ Hin).
  - intros Hin. unfold TCS3000.processStatus.
    by rewrite (statusMap_unknown _ Hin).
  - unfold Neogi.processStatus. by destruct (Neogi.parseResponse res).
  - unfold Neogi2.processStatus. by destruct (Neogi2.parseResponse res).
Qed.

(** C7 (as amended). For the Neogi (both variants) [isOnline] is true
    exactly when [parseResponse] accepts the reply, whatever its status
    token.  For the TCS3000 [isOnline] is true exactly when the token
    [res.slice(16, -2)] is one of the eight codes of the table: a reply
    with any other token is reported offline. *)
Theorem C7_isOnline (res : jsstring) :
  (Neogi.isOnline res = true ↔ ∃ parsed, Neogi.parseResponse res = Ok parsed)
  ∧ (Neogi2.isOnline res = true
     ↔ ∃ parsed, Neogi2.parseResponse res = Ok parsed)
  ∧ (TCS3000.isOnline res = true
     ↔ slice_neg res 16 2 ∈ [js "00"; js "01"; js "02"; js "03"; js "04";
                             js "05"; js "06"; js "07"]).
Proof.
  split; [|split].
  - unfold Neogi.isOnline, Neogi.processStatus.
    destruct (Neogi.parseResponse res) as [p|e]; simpl.
    + split; [by exists p|done].
    + split; [done|by intros [p ?]].
  - unfold Neogi2.isOnline, Neogi2.processStatus.
    destruct (Neogi2.parseResponse res) as [p|e]; simpl.
    + split; [by exists p|done].
    + split; [done|by intros [p ?]].
  - unfold TCS3000.isOnline, TCS3000.processStatus. simpl.
    rewrite <- statusMap_truthy.
    by destruct (TCS3000.truthy (TCS3000.statusMap !! slice_neg res 16 2)).
Qed.

End Status.

(** C6 as stated fails: the TCS3000 reply with the unmapped code [08] is
    classified as [undefined], not as [UNKNOWN], and the Neogi status
    reply [#STIDLE#00%], whose checksum is wrong, makes [processStatus]
    throw. *)
Lemma C6_counterexample :
  slice_neg (js "7e0100401f02000008a5") 16 2 = js "08"
  ∧ TCS3000.processStatus (js "7e0100401f02000008a5")
    = {| TCS3000.status := None |}
  ∧ TCS3000.status (TCS3000.processStatus (js "7e0100401f02000008a5"))
    ≠ Some (js "UNKNOWN")
  ∧ Neogi.processStatus (BaseDispenser0 := Model.base) (js "#STIDLE#00%")
    = Throw (ChecksumValidationFailed (js "88") (js "00") (js "STIDLE")).
Proof. repeat split; vm_compute; done. Qed.

(** C6 as amended, on a known code, an unknown code and two Neogi
    replies. *)
Lemma C6_status_classification_witness :
  TCS3000.processStatus (js "7e0100401f02000001a5")
  = {| TCS3000.status := Some (js "IDLE") |}
  ∧ TCS3000.processStatus (js "7e0100401f02000008a5")
    = {| TCS3000.status := None |}.
Proof.
  split.
  - destruct (C6_status_classification (BaseDispenser0 := Model.base)
                (js "7e0100401f02000001a5")) as [H _].
    apply (H (js "01") (js "IDLE")); [|vm_compute; reflexivity].
    apply list_elem_of_further, list_elem_of_here.
  - destruct (C6_status_classification (BaseDispenser0 := Model.base)
                (js "7e0100401f02000008a5")) as (_ & H & _).
    apply H. rewrite !elem_of_cons, elem_of_nil.
    intros Hin.
    repeat destruct Hin as [Hin|Hin]; try (vm_compute in Hin; discriminate).
    done.
Defined.

(** C7 as stated fails for the TCS3000: the reply is well formed, its
    token [08] is merely not in the table, and [isOnline] is false. *)
Lemma C7_counterexample :
  slice_neg (js "7e0100401f02000008a5") 16 2 = js "08"
  ∧ TCS3000.isOnline (js "7e0100401f02000008a5") = false.
Proof. split; vm_compute; reflexivity. Qed.

(** C7 as amended: an unrecognised Neogi token is online, a known
    TCS3000 code is online. *)
Lemma C7_isOnline_witness :
  Neogi.isOnline (BaseDispenser0 := Model.base) (js "#STFOO%") = true
  ∧ TCS3000.isOnline (js "7e0100401f02000001a5") = true.
Proof.
  destruct (C7_isOnline (BaseDispenser0 := Model.base) (js "#STFOO%"))
    as (HN & _ & _).
  destruct (C7_isOnline (BaseDispenser0 := Model.base)
              (js "7e0100401f02000001a5")) as (_ & _ & HT).
  split.
  - apply HN. eexists. vm_compute. reflexivity.
  - apply HT.
    change (slice_neg (js "7e0100401f02000001a5") 16 2) with (js "01").
    apply list_elem_of_further, list_elem_of_here.
Defined.

(** C2 on a concrete history: a call that times out, then a call with a
    timeout of 5 ms that is answered. *)
Lemma C2_dispenserResponse_settles_once_witness :
  let rt := Neogi.run [Neogi.Call None; Neogi.Expire 0;
                       Neogi.Call (Some 5%N); Neogi.Data [126; 1]%N;
                       Neogi.Expire 1] runtime_init in
  promise_state 0 rt
  = Some (Rejected (js "Dispenser response timed out after 20000ms"))
  ∧ promise_state 1 rt = Some (Resolved (js "7e01"))
  ∧ listeners rt = [].
Proof.
  pose proof (C2_dispenserResponse_settles_once []
                [Neogi.Expire 0; Neogi.Call (Some 5%N); Neogi.Data [126; 1]%N;
                 Neogi.Expire 1] None) as [(_ & _ & _ & H0) _].
  pose proof (C2_dispenserResponse_settles_once
                [Neogi.Call None; Neogi.Expire 0]
                [Neogi.Data [126; 1]%N; Neogi.Expire 1] (Some 5%N))
    as [(_ & _ & _ & H1) _].
  split; [exact H0|]. split; [exact H1|]. vm_compute. reflexivity.
Defined.

(** * Further properties of the code *)

(** ** What the decimal checksum detects *)

Lemma decimalChecksum_iff (a b : jsstring) :
  decimalChecksum a = decimalChecksum b
  ↔ (code_sum a mod 100 = code_sum b mod 100)%N.
Proof.
  split; [apply decimalChecksum_inj|].
  unfold decimalChecksum. by intros ->.
Qed.

Lemma code_sum_middle (pre post : jsstring) (c : N) :
  code_sum (pre ++ c :: post) = (code_sum pre + c + code_sum post)%N.
Proof.
  rewrite code_sum_app. change (code_sum (c :: post)) with (c + code_sum post)%N.
  lia.
Qed.

Lemma code_sum_Permutation (a b : jsstring) :
  a ≡ₚ b → code_sum a = code_sum b.
Proof.
  induction 1 as [|x a b _ IH|x y a|a b c _ IH1 _ IH2]; unfold code_sum in *;
    simpl; [done | by rewrite IH | lia | by rewrite IH1].
Qed.

Lemma checksum_change_iff (pre post : jsstring) (c c' : N) :
  Neogi.calculateChecksum (pre ++ c :: post)
  = Neogi.calculateChecksum (pre ++ c' :: post)
  ↔ (c mod 100 = c' mod 100)%N.
Proof.
  rewrite !calculateChecksum_spec, decimalChecksum_iff, !code_sum_middle.
  generalize (code_sum pre) (code_sum post). intros x y. lia.
Qed.

(** X1. Replacing one character changes the checksum exactly when the two
    character codes differ modulo 100: a change of a code by 100 (such as
    a line feed, 10, for the letter n, 110) goes unnoticed. *)
Theorem checksum_single_change (pre post : jsstring) (c c' : N) :
  Neogi.calculateChecksum (pre ++ c :: post)
  = Neogi.calculateChecksum (pre ++ c' :: post)
  ↔ (c mod 100 = c' mod 100)%N.
Proof. apply checksum_change_iff. Qed.

(** X2. The checksum does not see the order of the characters: any
    rearrangement of the text has the same checksum. *)
Theorem checksum_order_blind (a b : jsstring) :
  a ≡ₚ b → Neogi.calculateChecksum a = Neogi.calculateChecksum b.
Proof.
  intros H. rewrite !calculateChecksum_spec. apply decimalChecksum_iff.
  by rewrite (code_sum_Permutation _ _ H).
Qed.

Lemma checksum_order_blind_witness :
  Neogi.calculateChecksum (js "12.08") = Neogi.calculateChecksum (js "21.08").
Proof. apply checksum_order_blind. apply perm_swap. Defined.

Section Corruption.
Context {number : Type} `{!JSNumber number, !BaseDispenser number}.




End Corruption.


(** ** What a decoded reply looks like *)

Lemma ack_reply_eq (tok : jsstring) :
  {| command := if (2 <=? length tok)%nat then substring tok 0 2 else tok;
     data := if (2 <? length tok)%nat then substring_from tok 2 else [];
     checksum := None; isSimpleAck := true |}
  = {| command := take 2 tok; data := drop 2 tok;
       checksum := None; isSimpleAck := true |}.
Proof.
  unfold substring, substring_from. rewrite drop_0. change (2 - 0) with 2.
  f_equal.
  - destruct (2 <=? length tok) eqn:Hl; [done|].
    apply Nat.leb_gt in Hl. rewrite take_ge; [done|lia].
  - destruct (2 <? length tok) eqn:Hl; [done|].
    apply Nat.ltb_ge in Hl. rewrite drop_ge; [done|lia].
Qed.

Lemma parse_with_shape recompute ascii r :
  parse_with recompute ascii = Ok r →
  (isSimpleAck r = true ∧ checksum r = None
   ∧ includes ascii HASH 1 = false
   ∧ ∃ tok, tok ≠ [] ∧ Forall (λ c, isUpperOrDigit c = true) tok
            ∧ command r = take 2 tok ∧ data r = drop 2 tok)
  ∨ (isSimpleAck r = false ∧ includes ascii HASH 1 = true
     ∧ ∃ content d1 d2,
         content ≠ [] ∧ Forall (λ c, dot c = true) content
         ∧ isDigit d1 = true ∧ isDigit d2 = true
         ∧ checksum r = Some [d1; d2] ∧ recompute content = [d1; d2]
         ∧ command r = take 2 content ∧ data r = drop 2 content).
Proof.
  intros Hr. unfold parse_with in Hr.
  destruct (includes ascii HASH 1) eqn:Hinc; simpl negb in Hr; cbv iota in Hr.
  - right.
    destruct (String_match data_re ascii) as [m|] eqn:Hm; [|discriminate].
    destruct (decide (recompute (group m 1) ≠ group m 2)) as [|Heq];
      [discriminate|].
    apply dec_stable in Heq.
    apply String_match_inv in Hm as (pre & t & _ & Ht).
    apply data_re_inv in Ht as (content & d1 & d2 & post & _ & -> & Hne & Hdot
                                & H1 & H2).
    change (group [content; [d1; d2]] 1) with content in *.
    change (group [content; [d1; d2]] 2) with [d1; d2] in *.
    assert (r = {| command := take 2 content; data := drop 2 content;
                   checksum := Some [d1; d2]; isSimpleAck := false |}) as ->
      by (unfold substring, substring_from in Hr; rewrite drop_0 in Hr;
          change (2 - 0) with 2 in Hr; congruence).
    repeat split. by exists content, d1, d2.
  - destruct (String_match ack_re ascii) as [m|] eqn:Hm.
    + left.
      apply String_match_inv in Hm as (pre & t & _ & Ht).
      apply ack_re_inv in Ht as (tok & post & _ & -> & Hne & Htok).
      change (group [tok] 1) with tok in Hr. rewrite ack_reply_eq in Hr.
      assert (r = {| command := take 2 tok; data := drop 2 tok;
                     checksum := None; isSimpleAck := true |}) as ->
        by congruence.
      repeat split. by exists tok.
    + destruct (String_match data_re ascii) as [m|] eqn:Hd; [|discriminate].
      apply data_match_includes in Hd. congruence.
Qed.

Section ReplyShape.
Context {number : Type} `{!JSNumber number, !BaseDispenser number}.

(** X4. Every reply that [parseResponse] returns (first variant) has a
    command of one or two characters, and a data field only behind a
    two-character command.  A simple acknowledgement carries no checksum
    and only capital letters and digits; a data reply carries a checksum
    of exactly two decimal digits, equal to the checksum recomputed over
    its content and the closing ['#'], and no line terminator. *)
Theorem decoded_reply_shape (res : jsstring) (r : DecodedReply) :
  Neogi.parseResponse res = Ok r →
  1 ≤ length (command r) ≤ 2
  ∧ (data r ≠ [] → length (command r) = 2)
  ∧ if isSimpleAck r then
      checksum r = None
      ∧ Forall (λ c, isUpperOrDigit c = true) (command r ++ data r)
    else
      (∃ d1 d2, checksum r = Some [d1; d2]
                ∧ isDigit d1 = true ∧ isDigit d2 = true
                ∧ Neogi.calculateChecksum (command r ++ data r ++ [HASH])
                  = [d1; d2])
      ∧ Forall (λ c, dot c = true) (command r ++ data r).
Proof.
  rewrite parseResponse_shape. intros Hr.
  assert (Hlen : ∀ s : jsstring, s ≠ [] →
            1 ≤ length (take 2 s) ≤ 2
            ∧ (drop 2 s ≠ [] → length (take 2 s) = 2)).
  { intros [|a [|b s]] Hs; [done|..]; simpl; split; try lia; try done. }
  apply parse_with_shape in Hr
    as [(-> & Hcs & _ & tok & Hne & Htok & -> & ->)
       |(-> & _ & content & d1 & d2 & Hne & Hdot & H1 & H2 & Hcs & Hre
         & -> & ->)].
  - destruct (Hlen tok Hne) as [? ?]. rewrite take_drop. done.
  - destruct (Hlen content Hne) as [? ?]. rewrite take_drop.
    split; [done|]. split; [done|]. split; [|done].
    exists d1, d2. split; [done|]. split; [done|]. split; [done|].
    rewrite app_assoc, take_drop. exact Hre.
Qed.

End ReplyShape.

Lemma decoded_reply_shape_witness :
  let r := {| command := js "VT"; data := js "0000004142.02";
              checksum := Some (js "40"); isSimpleAck := false |} in
  1 ≤ length (command r) ≤ 2
  ∧ (data r ≠ [] → length (command r) = 2)
  ∧ (∃ d1 d2, checksum r = Some [d1; d2]
              ∧ isDigit d1 = true ∧ isDigit d2 = true
              ∧ Neogi.calculateChecksum (command r ++ data r ++ [HASH])
                = [d1; d2])
    ∧ Forall (λ c, dot c = true) (command r ++ data r).
Proof.
  intros r.
  apply (decoded_reply_shape (BaseDispenser0 := Model.base)
           (js "#VT0000004142.02#40%") r).
  vm_compute. reflexivity.
Defined.

(** ** The Neogi status predicates *)

Lemma upper_not_trimmed (c : N) :
  isUpperOrDigit c = true → isTrimmed c = false.
Proof.
  unfold isUpperOrDigit, isDigit, isTrimmed, isWhiteSpace, isLineTerminator.
  intros H. apply not_true_iff_false. intros Ht.
  rewrite !orb_true_iff, !andb_true_iff, !N.leb_le in H.
  rewrite !orb_true_iff, !andb_true_iff, !N.eqb_eq, !N.leb_le in Ht. lia.
Qed.

Lemma trimStart_head (s : jsstring) :
  match s with c :: _ => isTrimmed c = false | [] => True end →
  trimStart s = s.
Proof. destruct s as [|c s]; [done|]. simpl. by intros ->. Qed.

Lemma trim_upper (s : jsstring) :
  Forall (λ c, isUpperOrDigit c = true) s → trim s = s.
Proof.
  intros Hs. unfold trim.
  assert (Hhead : ∀ t : jsstring, Forall (λ c, isUpperOrDigit c = true) t →
                    trimStart t = t).
  { intros t Ht. apply trimStart_head. destruct Ht; [done|].
    by apply upper_not_trimmed. }
  rewrite (Hhead s Hs). rewrite Hhead; [apply rev_involutive|].
  apply Forall_forall. intros x Hx%list_elem_of_In%in_rev%list_elem_of_In.
  by apply (proj1 (Forall_forall _ _) Hs).
Qed.

Section NeogiStatus.
Context {number : Type} `{!JSNumber number, !BaseDispenser number}.

(** X9. The status of a simple acknowledgement [#<TOKEN>%] is the token
    without its first two characters, whatever these are:
    [processStatus] does not look at the command code, so a reply such as
    [#RVIDLE%] reads as idle just like [#STIDLE%]. *)
Theorem status_of_simple_ack (tok post : jsstring) :
  HASH ∉ tok ++ PERCENT :: post →
  tok ≠ [] → Forall (λ c, isUpperOrDigit c = true) tok →
  Neogi.processStatus (HASH :: tok ++ PERCENT :: post)
  = Ok {| Neogi.state := drop 2 tok |}
  ∧ Neogi.isIdle (HASH :: tok ++ PERCENT :: post)
    = Ok (bool_decide (drop 2 tok = js "IDLE"))
  ∧ Neogi.isDispensing (HASH :: tok ++ PERCENT :: post)
    = Ok (bool_decide (drop 2 tok = js "DISP")).
Proof.
  intros Hh Hne Htok.
  assert (Hst : Neogi.processStatus (HASH :: tok ++ PERCENT :: post)
                = Ok {| Neogi.state := drop 2 tok |}).
  { unfold Neogi.processStatus. rewrite parseResponse_shape.
    change (startsWith (HASH :: _) HASH) with true. cbv iota.
    rewrite (parse_with_ack _ _ _ Hh Hne Htok). simpl.
    rewrite trim_upper; [done|]. by apply Forall_drop. }
  split; [done|]. unfold Neogi.isIdle, Neogi.isDispensing. by rewrite Hst.
Qed.

(** X10. The Neogi predicates agree with one another: [isReadyForPreset] and
    [isSaleCloseable] are [isIdle]; a reply is never idle and dispensing
    at once; a predicate answers exactly when [parseResponse] accepts the
    reply, and then the dispenser is reported online; otherwise every
    predicate throws the error of [parseResponse] and [isOnline] is
    false. *)
Theorem neogi_predicates_agree (res : jsstring) :
  NeogiCatalog.isReadyForPreset res = Neogi.isIdle res
  ∧ NeogiCatalog.isSaleCloseable res = Neogi.isIdle res
  ∧ (Neogi.isIdle res = Ok true → Neogi.isDispensing res = Ok false)
  ∧ match Neogi.parseResponse res with
    | Ok parsed =>
      Neogi.isIdle res = Ok (bool_decide (trim (data parsed) = js "IDLE"))
      ∧ Neogi.isDispensing res
        = Ok (bool_decide (trim (data parsed) = js "DISP"))
      ∧ Neogi.isOnline res = true
    | Throw e =>
      Neogi.isIdle res = Throw e ∧ Neogi.isDispensing res = Throw e
      ∧ Neogi.isOnline res = false
    end.
Proof.
  unfold NeogiCatalog.isReadyForPreset, NeogiCatalog.isSaleCloseable,
    Neogi.isIdle, Neogi.isDispensing, Neogi.isOnline, Neogi.processStatus.
  destruct (Neogi.parseResponse res) as [p|e]; simpl; [|done].
  repeat split. intros [= Hidle%bool_decide_eq_true]. f_equal.
  apply bool_decide_eq_false. rewrite Hidle. discriminate.
Qed.

End NeogiStatus.

Lemma status_of_simple_ack_witness :
  Neogi.isIdle (BaseDispenser0 := Model.base) (js "#RVIDLE%") = Ok true.
Proof.
  destruct (status_of_simple_ack (BaseDispenser0 := Model.base)
              (js "RVIDLE") []) as (_ & H & _).
  - rewrite list_elem_of_In. vm_compute. intros Hin.
    repeat destruct Hin as [Hin|Hin]; try discriminate. done.
  - discriminate.
  - repeat constructor.
  - exact H.
Defined.

Lemma neogi_predicates_agree_witness :
  Neogi.isIdle (BaseDispenser0 := Model.base) (js "#STIDLE%") = Ok true
  ∧ Neogi.isDispensing (BaseDispenser0 := Model.base) (js "#STIDLE%")
    = Ok false.
Proof.
  destruct (neogi_predicates_agree (BaseDispenser0 := Model.base)
              (js "#STIDLE%")) as (_ & _ & H & _).
  assert (Hidle : Neogi.isIdle (BaseDispenser0 := Model.base)
                    (js "#STIDLE%") = Ok true) by (vm_compute; reflexivity).
  split; [exact Hidle | exact (H Hidle)].
Defined.

(** ** [processCommand] of the Neogi *)

Lemma isPrefixOf_spec (p s : jsstring) :
  isPrefixOf p s = true ↔ ∃ post, s = p ++ post.
Proof.
  revert s. induction p as [|c p IH]; intros s; simpl.
  - split; [by exists s|done].
  - destruct s as [|x s].
    + split; [done|]. by intros [post ?].
    + rewrite andb_true_iff, N.eqb_eq, IH. split.
      * intros [-> [post ->]]. by exists post.
      * intros [post [= -> ->]]. split; [done|]. by exists post.
Qed.

Lemma includes_str_spec (s sub : jsstring) :
  includes_str s sub = true ↔ ∃ pre post, s = pre ++ sub ++ post.
Proof.
  induction s as [|x s IH]; simpl; rewrite orb_true_iff, isPrefixOf_spec.
  - split.
    + intros [[post H]|]; [|done]. by exists [], post.
    + intros (pre & post & H). left. destruct pre; [by exists post|done].
  - rewrite IH. split.
    + intros [[post H]|(pre & post & ->)]; [by exists [], post|].
      by exists (x :: pre), post.
    + intros ([|y pre] & post & H); [left; by exists post|].
      right. injection H as -> ->. by exists pre, post.
Qed.

Section NeogiCommand.
Context {number : Type} `{!JSNumber number, !BaseDispenser number}.

(** X11. [processCommand] never returns [false] and never looks at a checksum:
    it returns [true] exactly when the two letters [OK] occur somewhere in
    the reply (the test for [#OK#] adds nothing), and it throws
    [Command failed] otherwise. *)
Theorem processCommand_ok (res : jsstring) :
  let ascii := if startsWith res HASH then res else hex2a res in
  NeogiCatalog.processCommand res
  = (if includes_str ascii (js "OK") then Ok true
     else Throw (CommandFailed ascii))
  ∧ (NeogiCatalog.processCommand res = Ok true
     ↔ ∃ pre post, ascii = pre ++ js "OK" ++ post)
  ∧ NeogiCatalog.processCommand res ≠ Ok false.
Proof.
  intros ascii. unfold NeogiCatalog.processCommand. fold ascii.
  assert (Himp : includes_str ascii (js "#OK#") = true →
                 includes_str ascii (js "OK") = true).
  { rewrite !includes_str_spec. intros (pre & post & ->).
    exists (pre ++ [HASH]), (HASH :: post). by rewrite <- !app_assoc. }
  rewrite <- includes_str_spec.
  destruct (includes_str ascii (js "#OK#")) eqn:H1;
    destruct (includes_str ascii (js "OK")) eqn:H2; simpl;
    try (specialize (Himp eq_refl); discriminate); repeat split; done.
Qed.

End NeogiCommand.

(** ** The layout of the preset command *)




Section PresetLayout.
Context {number : Type} `{!JSNumber number, !BaseDispenser number}.


End PresetLayout.

Section OwnFrames.
Context {number : Type} `{!JSNumber number, !BaseDispenser number}.


(** X6. The second variant decodes every frame that its own
    [buildCommandWithChecksum] builds: for a payload without ['#'] and
    line terminators, [parseResponse] returns the first two characters as
    the command, the rest as the data and the checksum of the payload. *)
Theorem own_frames_roundtrip_second (text : jsstring) :
  text ≠ [] → Forall (λ c, dot c = true ∧ c ≠ HASH) text →
  Neogi2.parseResponse (Neogi2.buildCommandWithChecksum text)
  = Ok {| command := take 2 text; data := drop 2 text;
          checksum := Some (Neogi2.calculateChecksum text);
          isSimpleAck := false |}.
Proof. apply frame_roundtrip_second. Qed.

End OwnFrames.


Lemma own_frames_roundtrip_second_witness :
  Neogi2.parseResponse (BaseDispenser0 := Model.base)
    (Neogi2.buildCommandWithChecksum (js "SL00001050ABC123      "))
  = Ok {| command := js "SL"; data := js "00001050ABC123      ";
          checksum := Some (js "89"); isSimpleAck := false |}.
Proof.
  etransitivity;
    [apply (own_frames_roundtrip_second (BaseDispenser0 := Model.base))
    |vm_compute; reflexivity].
  - discriminate.
  - vm_compute. repeat (constructor; [split; [reflexivity|discriminate]|]).
    constructor.
Defined.

(** ** The status predicates of the TCS3000 *)

Lemma status_table_values : NoDup (status_table.*2).
Proof. compute_done. Qed.

Lemma NoDup_snd_key {K V} (l : list (K * V)) (a b : K) (v : V) :
  NoDup (l.*2) → (a, v) ∈ l → (b, v) ∈ l → a = b.
Proof.
  induction l as [|[k w] l IH]; intros Hnd Ha Hb; [by apply elem_of_nil in Ha|].
  rewrite fmap_cons in Hnd. apply NoDup_cons in Hnd as [Hw Hnd].
  assert (Hin : ∀ c, (c, v) ∈ l → v ∈ l.*2).
  { intros c Hc. apply list_elem_of_fmap. by exists (c, v). }
  apply elem_of_cons in Ha as [Ha|Ha]; apply elem_of_cons in Hb as [Hb|Hb].
  - congruence.
  - injection Ha as -> ->. exfalso. apply Hw. by apply (Hin b).
  - injection Hb as -> ->. exfalso. apply Hw. by apply (Hin a).
  - by apply IH.
Qed.

Lemma statusMap_state_iff (tok k v : jsstring) :
  (k, v) ∈ status_table →
  TCS3000.statusMap !! tok = Some v ↔ tok = k.
Proof.
  intros Hk. split.
  - intros Hv. apply elem_of_list_to_map_2 in Hv.
    exact (NoDup_snd_key status_table tok k v status_table_values Hv Hk).
  - intros ->. by apply statusMap_known.
Qed.

Lemma length_slice_neg (s : jsstring) (a k : nat) :
  length (slice_neg s a k) = (length s - k) - (a `min` length s).
Proof. unfold slice_neg. rewrite length_take, length_drop. lia. Qed.

(** X12. Each status predicate of the TCS3000 is decided by the token
    [res.slice(16, -2)] alone: idle and ready for preset on [01],
    dispensing on [02], suspended on [04], stopped on [05], closeable on
    [05] or [06].  So at most one of idle, dispensing, suspended and
    stopped holds, each of them implies [isOnline], and [isOnline] holds
    only for a reply of exactly 20 characters. *)
Theorem tcs_status_predicates (res : jsstring) :
  let tok := slice_neg res 16 2 in
  (TCS3000.isIdle res = true ↔ tok = js "01")
  ∧ TCS3000Catalog.isReadyForPreset res = TCS3000.isIdle res
  ∧ (TCS3000Catalog.isDispensing res = true ↔ tok = js "02")
  ∧ (TCS3000Catalog.isSaleSuspended res = true ↔ tok = js "04")
  ∧ (TCS3000Catalog.isPumpStopped res = true ↔ tok = js "05")
  ∧ (TCS3000Catalog.isSaleCloseable res = true
     ↔ tok = js "05" ∨ tok = js "06")
  ∧ (TCS3000.isIdle res = true ∨ TCS3000Catalog.isDispensing res = true
     ∨ TCS3000Catalog.isSaleSuspended res = true
     ∨ TCS3000Catalog.isPumpStopped res = true
     ∨ TCS3000Catalog.isSaleCloseable res = true →
     TCS3000.isOnline res = true)
  ∧ (TCS3000.isOnline res = true → length res = 20).
Proof.
  intros tok.
  assert (Hpred : ∀ k v, (k, v) ∈ status_table →
            (if decide (TCS3000.statusMap !! tok = Some v) then true else false)
            = true ↔ tok = k).
  { intros k v Hk. rewrite <- (statusMap_state_iff tok k v Hk).
    by destruct (decide (TCS3000.statusMap !! tok = Some v)). }
  assert (H01 := Hpred (js "01") (js "IDLE")
                   ltac:(apply list_elem_of_further, list_elem_of_here)).
  assert (H02 := Hpred (js "02") (js "ACTIVE")
                   ltac:(do 2 apply list_elem_of_further;
                         apply list_elem_of_here)).
  assert (H04 := Hpred (js "04") (js "PAUSED")
                   ltac:(do 4 apply list_elem_of_further;
                         apply list_elem_of_here)).
  assert (H05 := Hpred (js "05") (js "STOPPED")
                   ltac:(do 5 apply list_elem_of_further;
                         apply list_elem_of_here)).
  assert (H06 := Hpred (js "06") (js "TCKT_PENDING")
                   ltac:(do 6 apply list_elem_of_further;
                         apply list_elem_of_here)).
  assert (Hclose : TCS3000Catalog.isSaleCloseable res = true
                   ↔ tok = js "05" ∨ tok = js "06").
  { unfold TCS3000Catalog.isSaleCloseable, TCS3000.processStatus. simpl.
    fold tok. rewrite <- H05, <- H06.
    destruct (decide (TCS3000.statusMap !! tok
                      ∈ [Some (js "STOPPED"); Some (js "TCKT_PENDING")]))
      as [Hin|Hin];
      destruct (decide (TCS3000.statusMap !! tok = Some (js "STOPPED")));
      destruct (decide (TCS3000.statusMap !! tok = Some (js "TCKT_PENDING")));
      rewrite !elem_of_cons, elem_of_nil in Hin; intuition congruence. }
  assert (Honline : TCS3000.isOnline res = true
                    ↔ tok ∈ [js "00"; js "01"; js "02"; js "03"; js "04";
                             js "05"; js "06"; js "07"]).
  { unfold TCS3000.isOnline, TCS3000.processStatus. simpl. fold tok.
    rewrite <- statusMap_truthy.
    by destruct (TCS3000.truthy (TCS3000.statusMap !! tok)). }
  split; [exact H01|]. split; [reflexivity|].
  split; [exact H02|]. split; [exact H04|]. split; [exact H05|].
  split; [exact Hclose|]. split.
  - rewrite Honline, Hclose.
    change (TCS3000.isIdle res = true) with
      ((if decide (TCS3000.statusMap !! tok = Some (js "IDLE"))
        then true else false) = true).
    rewrite H01.
    change (TCS3000Catalog.isDispensing res = true) with
      ((if decide (TCS3000.statusMap !! tok = Some (js "ACTIVE"))
        then true else false) = true).
    change (TCS3000Catalog.isSaleSuspended res = true) with
      ((if decide (TCS3000.statusMap !! tok = Some (js "PAUSED"))
        then true else false) = true).
    change (TCS3000Catalog.isPumpStopped res = true) with
      ((if decide (TCS3000.statusMap !! tok = Some (js "STOPPED"))
        then true else false) = true).
    rewrite H02, H04, H05, !elem_of_cons. tauto.
  - rewrite Honline. intros Hin.
    assert (Hlen : length tok = 2).
    { rewrite !elem_of_cons, elem_of_nil in Hin.
      repeat destruct Hin as [->|Hin]; done. }
    unfold tok in Hlen. rewrite length_slice_neg in Hlen. lia.
Qed.

Lemma tcs_status_predicates_witness :
  TCS3000Catalog.isPumpStopped (js "7e0100401f02000005a5") = true
  ∧ TCS3000Catalog.isSaleCloseable (js "7e0100401f02000005a5") = true
  ∧ TCS3000.isOnline (js "7e0100401f02000005a5") = true.
Proof.
  destruct (tcs_status_predicates (js "7e0100401f02000005a5"))
    as (_ & _ & _ & _ & H5 & Hc & Hon & _).
  assert (Hs : TCS3000Catalog.isPumpStopped (js "7e0100401f02000005a5") = true)
    by (apply H5; vm_compute; reflexivity).
  split; [exact Hs|]. split.
  - apply Hc. left. vm_compute. reflexivity.
  - apply Hon. tauto.
Defined.

(** ** [processCommand] of the TCS3000 *)

Lemma js_neq (a b : jsstring) : bool_decide (a = b) = false → a ≠ b.
Proof. intros H. by apply bool_decide_eq_false in H. Qed.

(** X13. [processCommand] of the TCS3000 reads fixed positions and fixed
    codes: authorization succeeds exactly when the character at index 15
    is ['3'], a pump stop exactly when the characters at indices 12 and 13
    are both ['0'], so replies too short to have these positions fail; a
    suspension succeeds exactly when [0043] or [0023] occurs anywhere in
    the reply, a resumption exactly when [0023] does, so every reply that
    confirms a resumption also confirms a suspension. *)
Theorem tcs_processCommand (res : jsstring) :
  (TCS3000Catalog.processCommand res (js "authorizeSale") = true
   ↔ res !! 15 = Some 51%N)
  ∧ (TCS3000Catalog.processCommand res (js "pumpStop") = true
     ↔ res !! 12 = Some 48%N ∧ res !! 13 = Some 48%N)
  ∧ (length res ≤ 15 →
     TCS3000Catalog.processCommand res (js "authorizeSale") = false)
  ∧ (length res ≤ 13 →
     TCS3000Catalog.processCommand res (js "pumpStop") = false)
  ∧ (TCS3000Catalog.processCommand res (js "suspendSale") = true
     ↔ (∃ pre post, res = pre ++ js "0043" ++ post)
       ∨ (∃ pre post, res = pre ++ js "0023" ++ post))
  ∧ (TCS3000Catalog.processCommand res (js "resumeSale") = true
     ↔ ∃ pre post, res = pre ++ js "0023" ++ post)
  ∧ (TCS3000Catalog.processCommand res (js "resumeSale") = true →
     TCS3000Catalog.processCommand res (js "suspendSale") = true).
Proof.
  assert (Hauth : TCS3000Catalog.processCommand res (js "authorizeSale")
                  = bool_decide (res !! 15 = Some 51%N)).
  { unfold TCS3000Catalog.processCommand.
    rewrite !decide_False by (apply js_neq; vm_compute; reflexivity).
    rewrite decide_True by reflexivity. by rewrite lookup_drop. }
  assert (Hstop : TCS3000Catalog.processCommand res (js "pumpStop")
                  = bool_decide (res !! 12 = Some 48%N)
                    && bool_decide (res !! 13 = Some 48%N)).
  { unfold TCS3000Catalog.processCommand.
    rewrite !decide_False by (apply js_neq; vm_compute; reflexivity).
    rewrite decide_True by reflexivity. by rewrite !lookup_drop. }
  assert (Hsus : TCS3000Catalog.processCommand res (js "suspendSale")
                 = includes_str res (js "0043") || includes_str res (js "0023")).
  { unfold TCS3000Catalog.processCommand.
    rewrite decide_True by reflexivity.
    by destruct (includes_str res (js "0043") || includes_str res (js "0023")). }
  assert (Hres : TCS3000Catalog.processCommand res (js "resumeSale")
                 = includes_str res (js "0023")).
  { unfold TCS3000Catalog.processCommand.
    rewrite !decide_False by (apply js_neq; vm_compute; reflexivity).
    rewrite decide_True by reflexivity.
    by destruct (includes_str res (js "0023")). }
  rewrite Hauth, Hstop, Hsus, Hres.
  rewrite andb_true_iff, orb_true_iff, !bool_decide_eq_true, !includes_str_spec.
  repeat split; try tauto.
  - intros Hl. apply bool_decide_eq_false. by rewrite lookup_ge_None_2.
  - intros Hl. apply andb_false_iff. right.
    apply bool_decide_eq_false. by rewrite lookup_ge_None_2.
Qed.

Lemma tcs_processCommand_witness :
  TCS3000Catalog.processCommand (js "7e010020") (js "authorizeSale") = false
  ∧ TCS3000Catalog.processCommand (js "7e0100203a000023aa") (js "suspendSale")
    = true.
Proof.
  destruct (tcs_processCommand (js "7e010020")) as (_ & _ & Hshort & _).
  destruct (tcs_processCommand (js "7e0100203a000023aa"))
    as (_ & _ & _ & _ & _ & Hres & Himp).
  split; [apply Hshort; vm_compute; lia|].
  apply Himp, Hres. by exists (js "7e0100203a00"), (js "aa").
Defined.

(** ** The frames of the TCS3000 and their CRC *)

Lemma crc8_residue (bytes : list Z) : crc8 (bytes ++ [crc8 bytes]) = 0%Z.
Proof. rewrite crc8_app. simpl. by rewrite Z.lxor_nilpotent. Qed.

Section FrameCheck.
Context {number : Type} `{!JSNumber number, !BaseDispenser number}.

Lemma sendPreset_written (quantity : number) (conn : TCS3000.connection) :
  let hexQuantity := doubleToHex quantity in
  let qbytes :=
    hexStringToByte hexQuantity <$> TCS3000.steps_of_two (length hexQuantity) in
  Forall (λ b, 0 ≤ b < 256)%Z qbytes →
  TCS3000.sendPreset quantity conn
  = Ok {| TCS3000.written :=
            TCS3000.written conn
            ++ [(TCS3000.volumePrecursor ++ qbytes)
                ++ [crc8 (TCS3000.volumePrecursor ++ qbytes)]] |}.
Proof.
  intros hexQuantity qbytes Hq.
  assert (Hp : Forall (λ b, 0 ≤ b < 256)%Z TCS3000.volumePrecursor)
    by (repeat constructor; lia).
  assert (Hc0 : (0 ≤ crc8 TCS3000.volumePrecursor < 256)%Z)
    by (vm_compute; split; [discriminate|reflexivity]).
  destruct (crc_loop (hexStringToByte hexQuantity)
              (TCS3000.steps_of_two (length hexQuantity))
              (crc8 TCS3000.volumePrecursor) TCS3000.volumePrecursor Hc0 Hq)
    as [Hloop Hfin].
  cbv zeta in Hloop, Hfin. fold qbytes in Hloop, Hfin.
  rewrite <- crc8_app in Hloop, Hfin.
  unfold TCS3000.sendPreset. rewrite precursor_loop.
  fold hexQuantity. rewrite Hloop.
  rewrite Buffer_from_bytes; [done|].
  apply Forall_app. split; [by apply Forall_app|].
  constructor; [exact Hfin | constructor].
Qed.

(** X14. Every frame that the TCS3000 class writes passes the CRC check of a
    receiver: the accumulator run over the whole frame, CRC byte
    included, ends at 0.  This holds for the preset frame built by
    [sendPreset] (quantity bytes from 0 to 255) and for each of the eleven
    fixed frames, which also start with [7e 01 00] and carry the length of
    their payload at index 5. *)
Theorem tcs_frames_pass_crc :
  (∀ (quantity : number) (conn : TCS3000.connection),
     Forall (λ b, 0 ≤ b < 256)%Z
       (hexStringToByte (doubleToHex quantity)
        <$> TCS3000.steps_of_two (length (doubleToHex quantity))) →
     ∃ frame,
       TCS3000.sendPreset quantity conn
       = Ok {| TCS3000.written := TCS3000.written conn ++ [frame] |}
       ∧ crc8 frame = 0%Z
       ∧ take 6 frame = [0x7e; 0x01; 0x00; 0x20; 0x38; 0x0b]%Z)
  ∧ Forall (λ frame, crc8 frame = 0%Z
                     ∧ take 3 frame = [0x7e; 0x01; 0x00]%Z
                     ∧ frame !! 5 = Some (Z.of_nat (length frame - 7)))
      [TCS3000.totalizerBuffer; TCS3000.read_preset; TCS3000.read_sale;
       TCS3000.read_status; TCS3000.pump_start; TCS3000.pump_stop;
       TCS3000.cancel_preset; TCS3000.authorize; TCS3000Catalog.clear_sale;
       TCS3000Catalog.suspend_sale; TCS3000Catalog.resume_sale].
Proof.
  split.
  - intros quantity conn Hq. eexists. split; [by apply sendPreset_written|].
    split; [apply crc8_residue|]. by rewrite <- app_assoc.
  - repeat (constructor; [by vm_compute|]). constructor.
Qed.

End FrameCheck.

Lemma tcs_frames_pass_crc_witness :
  ∃ frame,
    TCS3000.sendPreset (BaseDispenser0 := Model.base) (21 # 2)%Q
      {| TCS3000.written := [] |}
    = Ok {| TCS3000.written := [frame] |}
    ∧ crc8 frame = 0%Z.
Proof.
  destruct (tcs_frames_pass_crc (BaseDispenser0 := Model.base)) as [H _].
  destruct (H (21 # 2)%Q {| TCS3000.written := [] |})
    as (frame & Hw & Hc & _).
  - vm_compute.
    repeat (constructor; [split; [discriminate|reflexivity]|]). constructor.
  - exists frame. by split.
Defined.

Lemma processCommand_ok_witness :
  NeogiCatalog.processCommand (BaseDispenser0 := Model.base) (js "#NOTOK#00%")
  = Ok true.
Proof.
  destruct (processCommand_ok (BaseDispenser0 := Model.base)
              (js "#NOTOK#00%")) as (_ & H & _).
  apply H. by exists (js "#NOT"), (js "#00%").
Defined.

Lemma checksum_single_change_witness :
  Neogi.calculateChecksum (js "RV0012.08" ++ [10%N])
  = Neogi.calculateChecksum (js "RV0012.08" ++ [110%N]).
Proof. apply (checksum_single_change (js "RV0012.08") [] 10 110). reflexivity. Defined.

(** ** More on the response correlator *)

Lemma filter_ne_length (j : nat) (l : list nat) :
  NoDup l → j ∈ l → S (length (filter (λ i, i ≠ j) l)) = length l.
Proof.
  induction 1 as [|x l Hx Hnd IH]; intros Hin; [by apply elem_of_nil in Hin|].
  destruct (decide (x = j)) as [->|Hne].
  - rewrite filter_cons_False by (intros ?; done).
    rewrite filter_all; [done|]. by intros y Hy ->.
  - rewrite filter_cons_True by done. simpl. f_equal. apply IH.
    apply elem_of_cons in Hin as [->|?]; done.
Qed.

Section Accounting.
Import Neogi.

Lemma accounting_step (rt : runtime) (ev : event) :
  runtime_inv rt →
  length (listeners rt) + length (settled rt) = next_id rt →
  length (listeners (step rt ev)) + length (settled (step rt ev))
  = next_id (step rt ev)
  ∧ next_id (step rt ev) = next_id rt + (if is_call ev then 1 else 0).
Proof.
  intros Hinv Hlen. destruct ev as [t|bytes|j]; simpl step.
  - simpl. rewrite length_app. simpl. lia.
  - rewrite (emit_data_eq _ _ Hinv). simpl.
    rewrite length_app, length_fmap. lia.
  - destruct (list_find (λ t, t.1 = j) (timers rt)) as [[i [j' ms]]|] eqn:Hf.
    2: { rewrite (expire_cleared _ _ Hf). simpl. lia. }
    rewrite (expire_found _ _ _ _ _ Hf). simpl.
    destruct Hinv as [Ht Hnd _]. apply NoDup_app in Hnd as (HL & _ & _).
    assert (Hj : j ∈ listeners rt).
    { apply list_find_Some in Hf as (Hi & Hj & _). simpl in Hj. subst j'.
      rewrite <- Ht. apply list_elem_of_fmap. exists (j, ms).
      split; [done|]. by eapply list_elem_of_lookup_2. }
    pose proof (filter_ne_length j _ HL Hj). rewrite length_app. simpl. lia.
Qed.

Lemma accounting_run (evs : list event) (rt : runtime) :
  runtime_inv rt →
  length (listeners rt) + length (settled rt) = next_id rt →
  length (listeners (run evs rt)) + length (settled (run evs rt))
  = next_id (run evs rt)
  ∧ next_id (run evs rt)
    = next_id rt + length (filter (λ ev, is_call ev = true) evs).
Proof.
  revert rt. induction evs as [|ev evs IH]; intros rt Hinv Hlen.
  - simpl. split; [done|lia].
  - change (run (ev :: evs) rt) with (run evs (step rt ev)).
    destruct (accounting_step rt ev Hinv Hlen) as [Hlen' Hid].
    destruct (IH _ (runtime_inv_step _ _ Hinv) Hlen') as [? Hid'].
    split; [done|]. rewrite Hid', Hid, filter_cons.
    destruct ev; simpl; lia.
Qed.

(** X15. After any history of calls, data events and timer expiries, every
    call made so far is accounted for exactly once: it is either still
    attached as a listener or it has been settled, never both and never
    twice, and the armed timers are exactly those of the attached
    listeners.  So the number of listeners is the number of calls minus
    the number of settlements. *)
Theorem correlator_accounting (evs : list event) :
  let rt := run evs runtime_init in
  (timers rt).*1 = listeners rt
  ∧ NoDup (listeners rt ++ (settled rt).*1)
  ∧ length (listeners rt) + length (settled rt)
    = length (filter (λ ev, is_call ev = true) evs)
  ∧ next_id rt = length (filter (λ ev, is_call ev = true) evs).
Proof.
  intros rt.
  destruct (runtime_inv_run evs _ runtime_inv_init) as [Ht Hnd _].
  destruct (accounting_run evs runtime_init runtime_inv_init eq_refl)
    as [Hlen Hid].
  fold rt in Ht, Hnd, Hlen, Hid. simpl in Hid.
  split; [done|]. split; [done|]. by rewrite Hlen, Hid.
Qed.

(** X16. One data event settles every call that is pending at that moment,
    all with the same bytes: with two calls outstanding, the reply to the
    first is also delivered to the second.  Afterwards no listener is
    attached and no timer is armed. *)
Theorem data_settles_every_pending (pre : list event) (bytes : list N) :
  let rt0 := run pre runtime_init in
  let rt := step rt0 (Data bytes) in
  listeners rt = [] ∧ timers rt = []
  ∧ ∀ id, id ∈ listeners rt0 →
      promise_state id rt = Some (Resolved (Buffer_toString_hex bytes))
      ∧ settle_count id rt = 1.
Proof.
  intros rt0 rt.
  pose proof (runtime_inv_run pre _ runtime_inv_init) as Hinv. fold rt0 in Hinv.
  unfold rt. simpl step. rewrite (emit_data_eq _ _ Hinv). simpl.
  split; [done|]. split; [done|]. intros id Hid.
  pose proof (attached_not_settled _ _ Hinv Hid) as H0.
  unfold settle_count in H0. apply length_zero_iff_nil in H0.
  destruct Hinv as [_ Hnd _]. apply NoDup_app in Hnd as (HL & _ & _).
  unfold promise_state, settle_count. simpl.
  by rewrite filter_app, H0, filter_fst_map, filter_eq_id.
Qed.

Lemma data_settles_every_pending_witness :
  let rt := run [Call None; Call None; Data [35; 79; 75; 37]%N] runtime_init in
  promise_state 0 rt = Some (Resolved (js "234f4b25"))
  ∧ promise_state 1 rt = Some (Resolved (js "234f4b25")).
Proof.
  destruct (data_settles_every_pending [Call None; Call None]
              [35; 79; 75; 37]%N) as (_ & _ & H).
  split.
  - apply (H 0). apply list_elem_of_here.
  - apply (H 1). apply list_elem_of_further, list_elem_of_here.
Defined.

End Accounting.

(** ** From the correlator to the decoder *)

Lemma hex_digit_range (d : N) :
  (d < 16)%N →
  (48 ≤ hex_digit d ≤ 57 ∨ 97 ≤ hex_digit d ≤ 102)%N.
Proof.
  intros Hd. unfold hex_digit. destruct (N.ltb_spec d 10); lia.
Qed.

Lemma length_Buffer_toString_hex (bytes : list N) :
  length (Buffer_toString_hex bytes) = 2 * length bytes.
Proof.
  unfold Buffer_toString_hex.
  induction bytes as [|b bytes IH]; simpl; [done|]. rewrite IH. lia.
Qed.

Lemma Buffer_toString_hex_digits (bytes : list N) :
  Forall (λ c, 48 ≤ c ≤ 57 ∨ 97 ≤ c ≤ 102)%N (Buffer_toString_hex bytes).
Proof.
  unfold Buffer_toString_hex. induction bytes as [|b bytes IH]; simpl.
  - constructor.
  - constructor; [|constructor; [|exact IH]]; apply hex_digit_range.
    + apply N.Div0.div_lt_upper_bound. lia.
    + apply N.mod_lt. discriminate.
Qed.

Section HexPath.
Context {number : Type} `{!JSNumber number, !BaseDispenser number}.

(** X17. The value with which [dispenserResponse] resolves is lower-case
    hexadecimal text, two digits per received byte, so it never starts
    with ['#']: [parseResponse] always converts it with [hex2a] first,
    and decoding it gives what decoding the converted text gives. *)
Theorem resolved_value_is_hex (bytes : list N) :
  let res := Buffer_toString_hex bytes in
  length res = 2 * length bytes
  ∧ Forall (λ c, 48 ≤ c ≤ 57 ∨ 97 ≤ c ≤ 102)%N res
  ∧ startsWith res HASH = false
  ∧ (startsWith (hex2a res) HASH = true →
     Neogi.parseResponse res = Neogi.parseResponse (hex2a res)).
Proof.
  intros res.
  pose proof (Buffer_toString_hex_digits bytes) as Hall. fold res in Hall.
  assert (Hstart : startsWith res HASH = false).
  { destruct Hall as [|c l Hc _]; [done|]. simpl.
    apply N.eqb_neq. unfold HASH. lia. }
  split; [apply length_Buffer_toString_hex|]. split; [done|]. split; [done|].
  intros Hh. rewrite !parseResponse_shape, Hstart, Hh. reflexivity.
Qed.

End HexPath.

Lemma resolved_value_is_hex_witness :
  Neogi.parseResponse (BaseDispenser0 := Model.base)
    (Buffer_toString_hex [35; 79; 75; 37]%N)
  = Neogi.parseResponse (BaseDispenser0 := Model.base) (js "#OK%").
Proof.
  destruct (resolved_value_is_hex (BaseDispenser0 := Model.base)
              [35; 79; 75; 37]%N) as (_ & _ & _ & H).
  etransitivity; [apply H; vm_compute; reflexivity|].
  vm_compute. reflexivity.
Defined.

(** ** The Neogi commands on the wire *)

Section NeogiWire.
Context {number : Type} `{!JSNumber number, !BaseDispenser number}.

Lemma exchange_spec (cmd : jsstring) (st : NeogiCatalog.io) :
  runtime_inv (NeogiCatalog.loop st) →
  NeogiCatalog.sent (NeogiCatalog.exchange cmd st).2
  = NeogiCatalog.sent st ++ [Buffer_from_ascii cmd]
  ∧ pending (NeogiCatalog.exchange cmd st).1 20000%N
            (NeogiCatalog.loop (NeogiCatalog.exchange cmd st).2).
Proof.
  intros Hinv. split; [done|].
  exact (pending_call None (NeogiCatalog.loop st) Hinv).
Qed.

(** X18. Every command of the Neogi writes exactly one buffer and leaves one
    pending call with the default timeout of 20000 ms.  The simple
    commands write their two letters and a carriage return; [pumpStop]
    and [suspendSale] write the same bytes [TP\r], [cancelPreset] and
    [clearSale] the same bytes [CT\r]; [resumeSale] writes the bare
    [SL\r], not a checksummed preset frame; [setPreset] writes the frame
    of [buildPresetCommand] without vehicle number and with mode ['*']. *)
Theorem neogi_commands_on_the_wire (evs : list Neogi.event)
    (sent0 : list (list N)) (quantity : number) :
  let st := {| NeogiCatalog.sent := sent0;
               NeogiCatalog.loop := Neogi.run evs runtime_init |} in
  Forall (λ '(method, bytes),
            NeogiCatalog.sent (method st).2 = sent0 ++ [bytes]
            ∧ pending (method st).1 20000%N (NeogiCatalog.loop (method st).2))
    [(NeogiCatalog.totalizer, [86; 84; 13]%N);
     (NeogiCatalog.readStatus, [83; 84; 13]%N);
     (NeogiCatalog.cancelPreset, [67; 84; 13]%N);
     (NeogiCatalog.readSale, [82; 86; 13]%N);
     (NeogiCatalog.pumpStop, [84; 80; 13]%N);
     (NeogiCatalog.suspendSale, [84; 80; 13]%N);
     (NeogiCatalog.resumeSale, [83; 76; 13]%N);
     (NeogiCatalog.clearSale, [67; 84; 13]%N);
     (NeogiCatalog.switchToRemote, [68; 77; 13]%N);
     (NeogiCatalog.switchToLocal, [65; 77; 13]%N);
     (NeogiCatalog.setPreset quantity,
      Buffer_from_ascii (Neogi.buildPresetCommand quantity None None))]
  ∧ NeogiCatalog.pumpStop st = NeogiCatalog.suspendSale st
  ∧ NeogiCatalog.cancelPreset st = NeogiCatalog.clearSale st.
Proof.
  intros st.
  assert (Hinv : runtime_inv (NeogiCatalog.loop st))
    by apply runtime_inv_run, runtime_inv_init.
  split; [|done].
  repeat (constructor; [exact (exchange_spec _ st Hinv)|]). constructor.
Qed.

End NeogiWire.

(** ** The protocol tester *)

Lemma tester_loop_sum (data : jsstring) :
  Tester.calculateChecksum data
  = padStart (Tester.toUpperCase (Tester.toString16 (code_sum data mod 256)))
             2 ZERO.
Proof. unfold Tester.calculateChecksum. by rewrite charCode_loop_all. Qed.

Lemma two_hex_table :
  forallb (λ m, match padStart (Tester.toUpperCase (Tester.toString16 m))
                               2 ZERO with
                | [d1; d2] => Tester.isUpperHex d1 && Tester.isUpperHex d2
                | _ => false
                end)
          (N.of_nat <$> seq 0 256) = true.
Proof. vm_compute. reflexivity. Qed.

Lemma tester_checksum_digits (data : jsstring) :
  ∃ d1 d2, Tester.calculateChecksum data = [d1; d2]
           ∧ Tester.isUpperHex d1 = true ∧ Tester.isUpperHex d2 = true.
Proof.
  rewrite tester_loop_sum. set (m := (code_sum data mod 256)%N).
  assert (Hm : (m < 256)%N) by (apply N.mod_lt; discriminate).
  clearbody m. pose proof two_hex_table as Ht. rewrite forallb_forall in Ht.
  specialize (Ht m).
  destruct (padStart (Tester.toUpperCase (Tester.toString16 m)) 2 ZERO)
    as [|d1 [|d2 [|]]].
  4: { assert (false = true); [|done]. apply Ht.
       apply list_elem_of_In, list_elem_of_fmap. exists (N.to_nat m).
       split; [lia|]. apply elem_of_seq. lia. }
  3: { exists d1, d2. split; [done|]. apply andb_true_iff. apply Ht.
       apply list_elem_of_In, list_elem_of_fmap. exists (N.to_nat m).
       split; [lia|]. apply elem_of_seq. lia. }
  all: assert (false = true); [|done]; apply Ht;
    apply list_elem_of_In, list_elem_of_fmap; exists (N.to_nat m);
    (split; [lia|]); apply elem_of_seq; lia.
Qed.

Lemma frame_re_unfold s :
  match_here Tester.frame_re s =
  match s with
  | x :: s' =>
    if N.eqb HASH x
    then lazy_plus dot (λ m r, cons m <$> match_here hex_tail r) [] s'
    else None
  | [] => None
  end.
Proof. unfold Tester.frame_re. by rewrite match_here_lit. Qed.

Lemma hex_tail_head r :
  match r with x :: _ => x ≠ HASH | [] => True end →
  match_here hex_tail r = None.
Proof.
  unfold hex_tail. rewrite match_here_lit. destruct r as [|x r]; [done|].
  intros Hx. by destruct (N.eqb_spec HASH x) as [<-|].
Qed.

Lemma hex_tail_intro d1 d2 post :
  Tester.isUpperHex d1 = true → Tester.isUpperHex d2 = true →
  match_here hex_tail (HASH :: d1 :: d2 :: PERCENT :: post) = Some [[d1; d2]].
Proof. intros H1 H2. simpl. by rewrite H1, H2. Qed.

Lemma frame_re_matches (content : jsstring) (d1 d2 : N) :
  content ≠ [] → Forall (λ c, dot c = true ∧ c ≠ HASH) content →
  Tester.isUpperHex d1 = true → Tester.isUpperHex d2 = true →
  String_match Tester.frame_re
    (HASH :: content ++ HASH :: d1 :: d2 :: [PERCENT])
  = Some [content; [d1; d2]].
Proof.
  intros Hne Hc H1 H2. apply String_match_head.
  rewrite frame_re_unfold. simpl N.eqb. cbv iota.
  apply lazy_plus_first.
  - exact Hne.
  - eapply Forall_impl; [exact Hc|]. by intros c [? _].
  - intros pre c post' -> _. rewrite hex_tail_head; [done|].
    apply Forall_app in Hc as [_ Hc]. by inversion Hc as [|?? [_ ?]].
  - by rewrite hex_tail_intro.
Qed.

(** X19. The tester of the example script decodes every frame that it builds
    with its own checksum (the sum of the codes modulo 256, written with
    two capital hexadecimal digits): for a text without ['#'] and line
    terminators, [parseResponse] of [#<text>#<checksum>%] returns the first
    two characters as the command, the rest as the data and the checksum
    itself. *)
Theorem tester_roundtrip (text : jsstring) :
  text ≠ [] → Forall (λ c, dot c = true ∧ c ≠ HASH) text →
  Tester.parseResponse
    ([HASH] ++ text ++ [HASH] ++ Tester.calculateChecksum text ++ [PERCENT])
  = Ok {| Tester.command := take 2 text; Tester.data := drop 2 text;
          Tester.checksum := Tester.calculateChecksum text |}.
Proof.
  intros Hne Hok.
  destruct (tester_checksum_digits text) as (d1 & d2 & Hcs & H1 & H2).
  unfold Tester.parseResponse. rewrite Hcs at 1.
  change ([HASH] ++ text ++ [HASH] ++ [d1; d2] ++ [PERCENT])
    with (HASH :: text ++ HASH :: d1 :: d2 :: [PERCENT]).
  rewrite (frame_re_matches text d1 d2 Hne Hok H1 H2).
  change (group [text; [d1; d2]] 1) with text.
  change (group [text; [d1; d2]] 2) with [d1; d2].
  rewrite Hcs. destruct (decide ([d1; d2] ≠ [d1; d2])); [done|].
  unfold substring, substring_from. by rewrite drop_0.
Qed.

Lemma tester_roundtrip_witness :
  Tester.parseResponse (js "#VT0000004142.02#25%")
  = Ok {| Tester.command := js "VT"; Tester.data := js "0000004142.02";
          Tester.checksum := js "25" |}.
Proof.
  etransitivity;
    [etransitivity; [|apply (tester_roundtrip (js "VT0000004142.02"))]|].
  - vm_compute. reflexivity.
  - discriminate.
  - vm_compute. repeat (constructor; [split; [reflexivity|discriminate]|]).
    constructor.
  - vm_compute. reflexivity.
Defined.

(** ** The two variants of the decoder side by side *)

Section Variants.
Context {number : Type} `{!JSNumber number, !BaseDispenser number}.

(** X20. The two variants of [parseResponse] never both accept a reply as a
    data reply: their checksums differ by the code of the closing ['#'].
    A reply that both accept is a simple acknowledgement, and both return
    the same record for it. *)
Theorem variants_agree_only_on_acks (res : jsstring) (r1 r2 : DecodedReply) :
  Neogi.parseResponse res = Ok r1 →
  Neogi2.parseResponse res = Ok r2 →
  r1 = r2 ∧ isSimpleAck r1 = true.
Proof.
  rewrite parseResponse_shape, parseResponse2_shape.
  set (ascii := if startsWith res HASH then res else hex2a res).
  intros H1 H2.
  destruct (isSimpleAck r1) eqn:Hack1; destruct (isSimpleAck r2) eqn:Hack2.
  - split; [|done]. unfold parse_with in H1, H2.
    destruct (negb (includes ascii HASH 1)).
    + destruct (String_match ack_re ascii); [congruence|].
      destruct (String_match data_re ascii) as [m|]; [|discriminate].
      destruct (decide (scope_with_hash (group m 1) ≠ group m 2));
        [discriminate|]. injection H1 as <-. discriminate.
    + destruct (String_match data_re ascii) as [m|]; [|discriminate].
      destruct (decide (scope_with_hash (group m 1) ≠ group m 2));
        [discriminate|]. injection H1 as <-. discriminate.
  - exfalso.
    apply parse_with_shape in H1 as [(_ & _ & Hi & _)|(Hf & _)]; [|congruence].
    apply parse_with_shape in H2 as [(Ht & _)|(_ & Hi' & _)]; congruence.
  - exfalso.
    apply parse_with_shape in H2 as [(_ & _ & Hi & _)|(Hf & _)]; [|congruence].
    apply parse_with_shape in H1 as [(Ht & _)|(_ & Hi' & _)]; congruence.
  - exfalso.
    destruct (parse_with_checked _ _ _ H1 Hack1) as (m & Hm & _ & _ & Hs1).
    destruct (parse_with_checked _ _ _ H2 Hack2) as (m' & Hm' & _ & _ & Hs2).
    rewrite Hm in Hm'. injection Hm' as <-.
    unfold scope_with_hash, scope_content in *.
    rewrite calculateChecksum_spec in Hs1.
    rewrite calculateChecksum2_spec in Hs2.
    apply (decimalChecksum_hash (group m 1)). congruence.
Qed.

Lemma parse_frame_trailing (recompute : jsstring → jsstring)
    (content post : jsstring) (d1 d2 : N) :
  content ≠ [] → Forall (λ c, dot c = true ∧ c ≠ HASH) content →
  isDigit d1 = true → isDigit d2 = true →
  parse_with recompute (HASH :: content ++ HASH :: d1 :: d2 :: PERCENT :: post)
  = parse_with recompute (HASH :: content ++ HASH :: d1 :: d2 :: [PERCENT]).
Proof.
  intros Hne Hok H1 H2.
  rewrite (parse_with_data recompute _ [content; [d1; d2]]).
  - rewrite (parse_with_data recompute _ [content; [d1; d2]]); [done|].
    apply String_match_head. by apply data_re_frame.
  - apply String_match_head. by apply data_re_frame.
Qed.

(** X21. Whatever follows the terminator ['%'] of a data reply is ignored by
    both variants: the reply decodes, or is refused, exactly as if it
    ended at the terminator (content without ['#'] and line
    terminators).  A second reply in the same chunk is dropped. *)
Theorem trailing_text_ignored (content post : jsstring) (d1 d2 : N) :
  content ≠ [] → Forall (λ c, dot c = true ∧ c ≠ HASH) content →
  isDigit d1 = true → isDigit d2 = true →
  Neogi.parseResponse (HASH :: content ++ HASH :: d1 :: d2 :: PERCENT :: post)
  = Neogi.parseResponse (HASH :: content ++ HASH :: d1 :: d2 :: [PERCENT])
  ∧ Neogi2.parseResponse
      (HASH :: content ++ HASH :: d1 :: d2 :: PERCENT :: post)
    = Neogi2.parseResponse (HASH :: content ++ HASH :: d1 :: d2 :: [PERCENT]).
Proof.
  intros Hne Hok H1 H2.
  rewrite !parseResponse_shape, !parseResponse2_shape.
  change (startsWith (HASH :: _) HASH) with true. cbv iota.
  split; by apply parse_frame_trailing.
Qed.


End Variants.

Lemma variants_agree_only_on_acks_witness :
  Neogi.parseResponse (BaseDispenser0 := Model.base) (js "#STIDLE%")
  = Neogi2.parseResponse (BaseDispenser0 := Model.base) (js "#STIDLE%").
Proof.
  destruct (variants_agree_only_on_acks (BaseDispenser0 := Model.base)
              (js "#STIDLE%")
              {| command := js "ST"; data := js "IDLE"; checksum := None;
                 isSimpleAck := true |}
              {| command := js "ST"; data := js "IDLE"; checksum := None;
                 isSimpleAck := true |}) as [_ _];
    vm_compute; reflexivity.
Defined.

Lemma trailing_text_ignored_witness :
  Neogi.parseResponse (BaseDispenser0 := Model.base)
    (js "#RV0012.08#48%#RV0012.09#49%")
  = Ok {| command := js "RV"; data := js "0012.08";
          checksum := Some (js "48"); isSimpleAck := false |}.
Proof.
  destruct (trailing_text_ignored (BaseDispenser0 := Model.base)
              (js "RV0012.08") (js "#RV0012.09#49%") 52 56) as [H _].
  - discriminate.
  - vm_compute. repeat (constructor; [split; [reflexivity|discriminate]|]).
    constructor.
  - reflexivity.
  - reflexivity.
  - etransitivity; [exact H|]. vm_compute. reflexivity.
Defined.
